(** * Erlang B calculator: a shallow embedding of [ErlangCalculator]

    The numerical core of [erlang_channels_web.py] is three static methods:
    [erlang_b], [erlang_b_inverse] and [erlang_a_from_pr].  They are embedded
    here as Rocq functions, one per method, with the exceptions of the Python
    code made explicit in an error monad.

    Numbers.  A Python [int] is a [Z].  A finite Python [float] is a dyadic
    rational, so it is embedded in [Q]; the arithmetic on it is exact, and
    the one thing kept of the binary64 format is its range: an operation
    that Python lets raise [OverflowError] raises it here as soon as the
    exact result is at or above the magnitude that binary64 rounds to
    infinity.  Rounding to 53 bits and gradual underflow are not part of the
    model.  Infinite and NaN arguments are outside it; the value
    [float('inf')] that [erlang_a_from_pr] returns is a constructor of its
    own, [PInf].  The traffic is a float; the evaluation that Python makes
    of [erlang_b] at an int traffic is [erlang_b_int].  Float addition and
    float division by a non-zero float never raise in Python, and are exact
    here; the sum of the terms cannot leave the range of a double
    ([denominator_in_range]). *)

From Stdlib Require Import ZArith QArith Qabs Qpower Qfield Lqa Lia List Bool.
From Stdlib Require Import String.
Import ListNotations.

Local Open Scope Q_scope.

(** ** Exceptions and the error monad *)

Inductive exn : Type :=
  | OverflowError
  | ValueError
  | ZeroDivisionError.

Inductive result (T : Type) : Type :=
  | Ok (v : T)
  | Raise (e : exn).

Arguments Ok {T} v.
Arguments Raise {T} e.

Definition bind {T U : Type} (c : result T) (k : T -> result U) : result U :=
  match c with
  | Ok v => k v
  | Raise e => Raise e
  end.

Notation "x <- c ;; k" := (bind c (fun x => k))
  (at level 61, c at next level, right associativity).

(** [try: c except (OverflowError, ValueError): h] *)
Definition try_except_overflow_value {T : Type} (c : result T) (h : result T)
  : result T :=
  match c with
  | Ok v => Ok v
  | Raise OverflowError => h
  | Raise ValueError => h
  | Raise ZeroDivisionError => Raise ZeroDivisionError
  end.

(** ** Comparisons of floats *)

Definition Qltb (x y : Q) : bool := negb (Qle_bool y x).

(** ** The range of binary64 *)

(** The least magnitude that round-to-nearest sends to infinity:
    [2^1024 - 2^970], half an ulp above the largest finite double. *)
Definition DBL_OVERFLOW : Z := (2 ^ 1024 - 2 ^ 970)%Z.

Definition overflows (x : Q) : bool := Qle_bool (inject_Z DBL_OVERFLOW) (Qabs x).

(** The largest finite double. *)
Definition DBL_MAX : Z := (2 ^ 1024 - 2 ^ 971)%Z.

(** The largest argument [math.factorial] accepts (a C [long]). *)
Definition LONG_MAX : Z := (2 ^ 63 - 1)%Z.

(** ** Primitive operations of the Python code *)

(** [A ** N] for a float [A] and an int [N]: the exponent is converted to a
    float first, zero to a negative power is a [ZeroDivisionError], and a
    result out of range is an [OverflowError]. *)
Definition float_pow (A : Q) (N : Z) : result Q :=
  if overflows (inject_Z N) then Raise OverflowError
  else if (N <? 0)%Z && Qeq_bool A 0 then Raise ZeroDivisionError
  else
    let r := A ^ N in
    if overflows r then Raise OverflowError else Ok r.

Fixpoint fact_Z (n : nat) : Z :=
  match n with
  | O => 1%Z
  | S m => (Z.of_nat (S m) * fact_Z m)%Z
  end.

(** [math.factorial(N)] *)
Definition factorial (N : Z) : result Z :=
  if (N <? 0)%Z then Raise ValueError
  else if (LONG_MAX <? N)%Z then Raise OverflowError
  else Ok (fact_Z (Z.to_nat N)).

(** [x / n] for a float [x] and an int [n]: [n] is converted to a float. *)
Definition float_div_int (x : Q) (n : Z) : result Q :=
  if overflows (inject_Z n) then Raise OverflowError
  else if (n =? 0)%Z then Raise ZeroDivisionError
  else Ok (x / inject_Z n).

(** [x / y] for two floats. *)
Definition float_div (x y : Q) : result Q :=
  if Qeq_bool y 0 then Raise ZeroDivisionError else Ok (x / y).

(** [range(n)] *)
Definition range (n : Z) : list Z := map Z.of_nat (seq 0 (Z.to_nat n)).

(** [range(a, b)] *)
Definition range_from (a b : Z) : list Z :=
  map (fun i => (a + Z.of_nat i)%Z) (seq 0 (Z.to_nat (b - a))).

(** ** [ErlangCalculator.erlang_b] *)

(** [(A ** k) / math.factorial(k)] *)
Definition term (A : Q) (k : Z) : result Q :=
  p <- float_pow A k ;;
  f <- factorial k ;;
  float_div_int p f.

(** [sum(... for k in ks)], continued from the partial sum [acc]. *)
Fixpoint sum_terms (A : Q) (acc : Q) (ks : list Z) : result Q :=
  match ks with
  | [] => Ok acc
  | k :: ks' => t <- term A k ;; sum_terms A (acc + t) ks'
  end.

(** The body of the [try] block. *)
Definition erlang_b_try (N : Z) (A : Q) : result Q :=
  numerator <- term A N ;;
  denominator <- sum_terms A 0 (range (N + 1)) ;;
  float_div numerator denominator.

Definition erlang_b (N : Z) (A : Q) : result Q :=
  if (N =? 0)%Z then Ok (if Qltb 0 A then 1 else 0)
  else try_except_overflow_value (erlang_b_try N A) (Ok 1).

(** ** [ErlangCalculator.erlang_b_inverse] *)

(** The [for N in ...] loop: the first [N] of the list whose blocking
    probability is at most [Pr], else [max_channels]. *)
Fixpoint erlang_b_inverse_loop (A Pr : Q) (max_channels : Z) (Ns : list Z)
  : result Z :=
  match Ns with
  | [] => Ok max_channels
  | N :: Ns' =>
      v <- erlang_b N A ;;
      if Qle_bool v Pr then Ok N
      else erlang_b_inverse_loop A Pr max_channels Ns'
  end.

Definition erlang_b_inverse (A Pr : Q) (max_channels : Z) : result Z :=
  if Qle_bool A 0 then Ok 0%Z
  else if Qle_bool 1 Pr then Ok 1%Z
  else erlang_b_inverse_loop A Pr max_channels (range_from 1 (max_channels + 1)).

Definition default_max_channels : Z := 1000.

(** The double that the literal [0.01] denotes,
    [0x1.47ae147ae147bp-7]. *)
Definition double_0_01 : Q := 5764607523034235 # 576460752303423488.

(** ** [ErlangCalculator.erlang_a_from_pr] *)

(** A float that may be [float('inf')]. *)
Inductive xfloat : Type :=
  | Fin (q : Q)
  | PInf.

(** The doubling loop [while erlang_b(N, high) < Pr and high < max_A].
    [None] is running out of fuel. *)
Fixpoint bracket (fuel : nat) (N : Z) (Pr max_A high : Q) : option (result Q) :=
  match fuel with
  | O => None
  | S fuel' =>
      match erlang_b N high with
      | Raise e => Some (Raise e)
      | Ok v =>
          if Qltb v Pr && Qltb high max_A
          then bracket fuel' N Pr max_A (high * 2)
          else Some (Ok high)
      end
  end.

(** The bisection loop [for _ in range(max_iter)], with the final
    [return (low + high) / 2.0] after it. *)
Fixpoint bisect (iters : nat) (N : Z) (Pr tol low high : Q) : result Q :=
  match iters with
  | O => Ok ((low + high) / 2)
  | S iters' =>
      let mid := (low + high) / 2 in
      val <- erlang_b N mid ;;
      if Qle_bool (Qabs (val - Pr)) tol then Ok mid
      else if Qltb val Pr then bisect iters' N Pr tol mid high
      else bisect iters' N Pr tol low mid
  end.

Definition erlang_a_from_pr (fuel : nat) (N : Z) (Pr tol : Q) (max_iter : Z)
  (max_A : Q) : option (result xfloat) :=
  if (N <=? 0)%Z then Some (Raise ValueError)
  else if Qle_bool Pr 0 then Some (Ok (Fin 0))
  else if Qle_bool 1 Pr then Some (Ok PInf)
  else
    match bracket fuel N Pr max_A 1 with
    | None => None
    | Some (Raise _) => Some (Ok (Fin max_A))
    | Some (Ok high) =>
        match erlang_b N high with
        | Raise e => Some (Raise e)
        | Ok v =>
            if Qltb v Pr then Some (Ok (Fin max_A))
            else
              match bisect (Z.to_nat max_iter) N Pr tol 0 high with
              | Raise e => Some (Raise e)
              | Ok a => Some (Ok (Fin a))
              end
        end
    end.

(** The defaults [tol=1e-9], [max_iter=100], [max_A=1e6], as the doubles
    that the literals denote. *)
Definition default_tol : Q :=
  4835703278458517 # 4835703278458516698824704.
Definition default_max_iter : Z := 100.
Definition default_max_A : Q := 1000000.


(** ** The Erlang B formula as the specification writes it *)

(** [A^k / k!] *)
Definition closed_term (A : Q) (k : nat) : Q :=
  A ^ Z.of_nat k / inject_Z (fact_Z k).

(** [f 0 + f 1 + ... + f n] *)
Fixpoint series (f : nat -> Q) (n : nat) : Q :=
  match n with
  | O => f O
  | S m => series f m + f (S m)
  end.

(** [(A^N / N!) / sum_{k=0..N} (A^k / k!)] *)
Definition erlang_b_closed_form (N : nat) (A : Q) : Q :=
  closed_term A N / series (closed_term A) N.

(** The normalised recurrence [B(0) = 1],
    [B(n) = A B(n-1) / (n + A B(n-1))]. *)
Fixpoint erlang_b_recurrence (n : nat) (A : Q) : Q :=
  match n with
  | O => 1
  | S m =>
      let x := A * erlang_b_recurrence m A in
      x / (inject_Z (Z.of_nat (S m)) + x)
  end.

(** The direct evaluation of [erlang_b(N, A)] does not overflow. *)
Definition overflow_free (N : Z) (A : Q) : Prop :=
  erlang_b_try N A <> Raise OverflowError.

(** All the terms [A^k / k!] for [k <= n] evaluate without an exception. *)
Definition terms_ok (A : Q) (n : nat) : Prop :=
  forall k, (k <= n)%nat -> term A (Z.of_nat k) = Ok (closed_term A k).


(** [erlang_b_inverse(A, Pr)] is satisfied by [k] channels. *)
Definition meets (A Pr : Q) (k : Z) : Prop :=
  exists v, erlang_b k A = Ok v /\ v <= Pr.

(** ** [ErlangCalculator.erlang_b] at an int traffic

    [erlang_b] above is the method at a float traffic, which is what the
    three handlers and [erlang_a_from_pr] pass.  Called with an int [A],
    Python evaluates [A ** k] on ints and [(A ** k) / math.factorial(k)]
    as the true quotient of two ints: no intermediate float can overflow,
    only the quotient.  The terms are floats from there on. *)

(** [a / b] for two ints. *)
Definition int_true_div (a b : Z) : result Q :=
  if (b =? 0)%Z then Raise ZeroDivisionError
  else
    let q := inject_Z a / inject_Z b in
    if overflows q then Raise OverflowError else Ok q.

(** [(A ** k) / math.factorial(k)] for an int [A]; with a negative [k],
    [A ** k] is computed on floats. *)
Definition term_int (A k : Z) : result Q :=
  if (k <? 0)%Z then
    if overflows (inject_Z A) then Raise OverflowError
    else term (inject_Z A) k
  else
    f <- factorial k ;;
    int_true_div (A ^ k) f.

Fixpoint sum_terms_int (A : Z) (acc : Q) (ks : list Z) : result Q :=
  match ks with
  | [] => Ok acc
  | k :: ks' => t <- term_int A k ;; sum_terms_int A (acc + t) ks'
  end.

Definition erlang_b_int_try (N A : Z) : result Q :=
  numerator <- term_int A N ;;
  denominator <- sum_terms_int A 0 (range (N + 1)) ;;
  float_div numerator denominator.

Definition erlang_b_int (N A : Z) : result Q :=
  if (N =? 0)%Z then Ok (if (0 <? A)%Z then 1 else 0)
  else try_except_overflow_value (erlang_b_int_try N A) (Ok 1).

(** The terms [A^k / k!] for [k <= n] are all in range. *)
Definition int_terms_okb (A : Z) (n : nat) : bool :=
  forallb (fun k => match term_int A (Z.of_nat k) with
                    | Ok _ => true
                    | Raise _ => false
                    end)
          (seq 0 (S n)).

(** ** The request handlers

    The three [/api/...] handlers are embedded from the point where
    [float(data.get(...))] and [int(data.get(...))] have returned: the
    arguments below are those values, taken finite.  A response is the pair that the
    handler returns, the JSON body and the HTTP status; the fields that the
    source renders with an f-string are kept as the values rendered.  An
    exception that leaves the handler is a [Raise]. *)

Inductive body : Type :=
  | Error (msg : string)
  | ResultChannels (N : Z)
  | ResultLoss (Pr Pr_percent : Q)
  | ResultTraffic (A : Q)
  | ResultInfinite.

Definition response : Type := (body * Z)%type.

(** [str(e)] for the [ValueError] that [erlang_a_from_pr] raises; the one
    of [math.factorial] never leaves [erlang_b]. *)
Definition str_ValueError : string := "N doit être strictement positif".

(** [except ValueError as e: return jsonify({'error': str(e)}), 400] *)
Definition except_ValueError (c : result response) : result response :=
  match c with
  | Raise ValueError => Ok (Error str_ValueError, 400%Z)
  | r => r
  end.

Definition calculate_channels (A Pr : Q) : result response :=
  except_ValueError
    (if Qle_bool A 0
     then Ok (Error "Le trafic A doit être positif", 400%Z)
     else if Qle_bool Pr 0 || Qle_bool 1 Pr
     then Ok (Error "Pr doit être entre 0 et 1", 400%Z)
     else
       N <- erlang_b_inverse A Pr default_max_channels ;;
       Ok (ResultChannels N, 200%Z)).

Definition calculate_loss_prob (A : Q) (N : Z) : result response :=
  except_ValueError
    (if Qle_bool A 0
     then Ok (Error "Le trafic A doit être positif", 400%Z)
     else if (N <=? 0)%Z
     then Ok (Error "Le nombre de canaux doit être positif", 400%Z)
     else
       Pr <- erlang_b N A ;;
       let Pr_percent := Pr * 100 in
       Ok (ResultLoss Pr Pr_percent, 200%Z)).

Definition calculate_traffic_a (fuel : nat) (N : Z) (Pr : Q)
  : option (result response) :=
  option_map except_ValueError
    (if (N <=? 0)%Z
     then Some (Ok (Error "Le nombre de canaux doit être positif", 400%Z))
     else if Qltb Pr 0 || Qle_bool 1 Pr
     then Some (Ok (Error "Pr doit être dans [0, 1)", 400%Z))
     else
       match erlang_a_from_pr fuel N Pr default_tol default_max_iter
               default_max_A with
       | None => None
       | Some r =>
           Some (A <- r ;;
                 match A with
                 | PInf => Ok (ResultInfinite, 200%Z)
                 | Fin a => Ok (ResultTraffic a, 200%Z)
                 end)
       end).

(** * Properties *)

(** [N >= 1] written as the successor of a natural number. *)
Ltac as_successor N E :=
  assert (E : N = Z.of_nat (S (Z.to_nat N - 1))) by lia.

(** The test [N <= 0] at the head of [erlang_a_from_pr], when [N >= 1]. *)
Ltac skip_channel_check :=
  match goal with
  | |- context [(?N <=? 0)%Z] =>
      replace (N <=? 0)%Z with false by (symmetry; apply Z.leb_gt; lia)
  end.

(** ** Comparisons *)

Lemma Qltb_lt (x y : Q) : Qltb x y = true <-> x < y.
Proof.
  unfold Qltb. rewrite negb_true_iff.
  split; intro H.
  - apply Qnot_le_lt. intro L. apply Qle_bool_iff in L. congruence.
  - destruct (Qle_bool y x) eqn:E; [|reflexivity].
    apply Qle_bool_iff in E. apply Qle_not_lt in E. contradiction.
Qed.

Lemma Qltb_ge (x y : Q) : Qltb x y = false <-> y <= x.
Proof.
  unfold Qltb. rewrite negb_false_iff. apply Qle_bool_iff.
Qed.

Lemma Qle_bool_gt (x y : Q) : Qle_bool x y = false <-> y < x.
Proof.
  rewrite <- Qltb_lt. unfold Qltb.
  destruct (Qle_bool x y); simpl; intuition congruence.
Qed.

(** ** The closed form and the recurrence *)

Lemma fact_Z_pos (n : nat) : (0 < fact_Z n)%Z.
Proof.
  induction n as [|n IH]; [reflexivity|].
  change (fact_Z (S n)) with (Z.of_nat (S n) * fact_Z n)%Z. lia.
Qed.

Lemma inject_Z_pos (z : Z) : (0 < z)%Z -> 0 < inject_Z z.
Proof. intro H. change 0 with (inject_Z 0). rewrite <- Zlt_Qlt. exact H. Qed.

Lemma inject_Z_succ (n : nat) :
  inject_Z (Z.of_nat (S n)) == inject_Z (Z.of_nat n) + 1.
Proof.
  rewrite Nat2Z.inj_succ. unfold Z.succ. rewrite inject_Z_plus. reflexivity.
Qed.

Lemma inject_nat_nonneg (n : nat) : 0 <= inject_Z (Z.of_nat n).
Proof. change 0 with (inject_Z 0). rewrite <- Zle_Qle. lia. Qed.

Lemma Qpower_succ_nat (A : Q) (n : nat) :
  A ^ Z.of_nat (S n) == A ^ Z.of_nat n * A.
Proof.
  rewrite Nat2Z.inj_succ. unfold Z.succ.
  rewrite Qpower_plus' by lia. rewrite Qpower_1_r. reflexivity.
Qed.

Lemma Qpower_nat_le (A B : Q) (n : nat) :
  0 <= A -> A <= B -> A ^ Z.of_nat n <= B ^ Z.of_nat n.
Proof.
  intros HA HAB. induction n as [|n IH].
  - simpl. lra.
  - rewrite !Qpower_succ_nat.
    assert (0 <= A ^ Z.of_nat n) by (apply Qpower_0_le; exact HA).
    nra.
Qed.

Lemma pow2_ge_1 (f : nat) : 1 <= 2 ^ Z.of_nat f.
Proof.
  induction f as [|f IH].
  - change (2 ^ Z.of_nat 0) with 1. lra.
  - rewrite Qpower_succ_nat. lra.
Qed.

Lemma closed_term_0 (A : Q) : closed_term A 0 == 1.
Proof. reflexivity. Qed.

Lemma closed_term_succ (A : Q) (n : nat) :
  closed_term A (S n) == closed_term A n * A / inject_Z (Z.of_nat (S n)).
Proof.
  unfold closed_term.
  change (fact_Z (S n)) with (Z.of_nat (S n) * fact_Z n)%Z.
  rewrite inject_Z_mult, Qpower_succ_nat.
  pose proof (inject_Z_pos _ (fact_Z_pos n)).
  assert (0 < inject_Z (Z.of_nat (S n))) by (apply inject_Z_pos; lia).
  field. split; lra.
Qed.

Lemma closed_term_pos (A : Q) (n : nat) : 0 < A -> 0 < closed_term A n.
Proof.
  intro HA. unfold closed_term.
  pose proof (inject_Z_pos _ (fact_Z_pos n)).
  pose proof (Qpower_0_lt A (Z.of_nat n) HA).
  apply Qlt_shift_div_l; [assumption | lra].
Qed.

(** Cross-multiplication for quotients with positive denominators. *)
Lemma Qdiv_le_cross (a b c d : Q) :
  0 < b -> 0 < d -> a * d <= c * b -> a / b <= c / d.
Proof.
  intros Hb Hd H.
  apply Qle_shift_div_l; [exact Hd|].
  assert (E : a / b * d == a * d / b) by (field; lra).
  rewrite E. apply Qle_shift_div_r; [exact Hb | exact H].
Qed.

Lemma Qdiv_lt_cross (a b c d : Q) :
  0 < b -> 0 < d -> a * d < c * b -> a / b < c / d.
Proof.
  intros Hb Hd H.
  apply Qlt_shift_div_l; [exact Hd|].
  assert (E : a / b * d == a * d / b) by (field; lra).
  rewrite E. apply Qlt_shift_div_r; [exact Hb | exact H].
Qed.

Lemma erlang_b_recurrence_succ (n : nat) (A : Q) :
  erlang_b_recurrence (S n) A =
  A * erlang_b_recurrence n A
  / (inject_Z (Z.of_nat (S n)) + A * erlang_b_recurrence n A).
Proof. reflexivity. Qed.

Lemma recurrence_pos (n : nat) (A : Q) :
  0 < A -> 0 < erlang_b_recurrence n A.
Proof.
  intro HA. induction n as [|n IH].
  - simpl. lra.
  - rewrite erlang_b_recurrence_succ.
    set (b := erlang_b_recurrence n A) in *.
    assert (Hc : 0 < inject_Z (Z.of_nat (S n))) by (apply inject_Z_pos; lia).
    assert (Hx : 0 < A * b) by nra.
    apply Qlt_shift_div_l; lra.
Qed.

(** Facts at one non-negative traffic [A]. *)
Section NonNegativeTraffic.

Variable A : Q.
Hypothesis A_nonneg : 0 <= A.

Lemma closed_term_nonneg (n : nat) : 0 <= closed_term A n.
Proof.
  unfold closed_term.
  pose proof (inject_Z_pos _ (fact_Z_pos n)).
  pose proof (Qpower_0_le A (Z.of_nat n) A_nonneg).
  apply Qle_shift_div_l; [assumption | lra].
Qed.

Lemma series_ge_1 (n : nat) : 1 <= series (closed_term A) n.
Proof.
  induction n as [|n IH].
  - simpl. rewrite closed_term_0. lra.
  - simpl. pose proof (closed_term_nonneg (S n)). lra.
Qed.

Lemma recurrence_bounds (n : nat) :
  0 <= erlang_b_recurrence n A <= 1.
Proof.
  induction n as [|n IH].
  - simpl. lra.
  - rewrite erlang_b_recurrence_succ.
    set (b := erlang_b_recurrence n A) in *.
    assert (Hc : 0 < inject_Z (Z.of_nat (S n))) by (apply inject_Z_pos; lia).
    assert (Hx : 0 <= A * b) by nra.
    split.
    + apply Qle_shift_div_l; lra.
    + apply Qle_shift_div_r; lra.
Qed.


(** The carried traffic [A (1 - B(n))] never exceeds the [n] servers. *)
Lemma carried_load (n : nat) :
  A * (1 - erlang_b_recurrence n A) <= inject_Z (Z.of_nat n).
Proof.
  induction n as [|n IH].
  - change (A * (1 - 1) <= 0). lra.
  - rewrite erlang_b_recurrence_succ.
    pose proof (recurrence_bounds n) as Hb.
    set (b := erlang_b_recurrence n A) in *.
    pose proof (inject_Z_succ n) as Hs.
    pose proof (inject_nat_nonneg n) as Hn.
    set (c := inject_Z (Z.of_nat (S n))) in *.
    set (m := inject_Z (Z.of_nat n)) in *.
    assert (Hx : 0 <= A * b) by nra.
    assert (E : A * (1 - A * b / (c + A * b)) == A * c / (c + A * b))
      by (field; lra).
    rewrite E. apply Qle_shift_div_r; [lra|]. nra.
Qed.

Lemma recurrence_decreasing_step (n : nat) :
  erlang_b_recurrence (S n) A <= erlang_b_recurrence n A.
Proof.
  rewrite erlang_b_recurrence_succ.
  pose proof (recurrence_bounds n) as Hb.
  pose proof (carried_load n) as Hl.
  set (b := erlang_b_recurrence n A) in *.
  pose proof (inject_Z_succ n) as Hs.
  pose proof (inject_nat_nonneg n) as Hn.
  set (c := inject_Z (Z.of_nat (S n))) in *.
  set (m := inject_Z (Z.of_nat n)) in *.
  assert (Hx : 0 <= A * b) by nra.
  apply Qle_shift_div_r; [lra|]. nra.
Qed.

Lemma recurrence_decreasing (n m : nat) :
  (n <= m)%nat ->
  erlang_b_recurrence m A <= erlang_b_recurrence n A.
Proof.
  intros Hnm. induction Hnm as [|m Hnm IH].
  - lra.
  - pose proof (recurrence_decreasing_step m). lra.
Qed.

(** The closed form satisfies the recurrence. *)
Lemma closed_form_recurrence (n : nat) :
  erlang_b_closed_form n A == erlang_b_recurrence n A.
Proof.
  induction n as [|n IH].
  - unfold erlang_b_closed_form. simpl series. rewrite closed_term_0.
    simpl. field.
  - rewrite erlang_b_recurrence_succ, <- IH.
    unfold erlang_b_closed_form. simpl series.
    rewrite closed_term_succ.
    pose proof (series_ge_1 n) as Hs.
    pose proof (closed_term_nonneg n) as Ht.
    assert (Hc : 0 < inject_Z (Z.of_nat (S n))) by (apply inject_Z_pos; lia).
    set (t := closed_term A n) in *.
    set (s := series (closed_term A) n) in *.
    set (c := inject_Z (Z.of_nat (S n))) in *.
    assert (Hp : 0 <= t * A) by nra.
    assert (Hq : 0 <= A * t) by nra.
    assert (Hd : 0 < c * s + A * t) by nra.
    assert (Hd2 : 0 <= t * A / c) by (apply Qle_shift_div_l; lra).
    field. repeat split; lra.
Qed.

End NonNegativeTraffic.

Lemma recurrence_monotone_A (n : nat) (A A' : Q) :
  0 <= A -> A <= A' ->
  erlang_b_recurrence n A <= erlang_b_recurrence n A'.
Proof.
  intros HA HAA'. induction n as [|n IH].
  - simpl. lra.
  - rewrite !erlang_b_recurrence_succ.
    pose proof (recurrence_bounds A HA n) as Hb.
    assert (HA' : 0 <= A') by lra.
    pose proof (recurrence_bounds A' HA' n) as Hb'.
    set (b := erlang_b_recurrence n A) in *.
    set (b' := erlang_b_recurrence n A') in *.
    assert (Hc : 0 < inject_Z (Z.of_nat (S n))) by (apply inject_Z_pos; lia).
    set (c := inject_Z (Z.of_nat (S n))) in *.
    assert (Hx : 0 <= A * b) by nra.
    assert (Hx' : 0 <= A' * b') by nra.
    assert (Hxx : A * b <= A' * b') by nra.
    apply Qdiv_le_cross; [lra | lra | nra].
Qed.

Lemma recurrence_strictly_monotone_A (n : nat) (A A' : Q) :
  0 <= A -> A < A' ->
  erlang_b_recurrence (S n) A < erlang_b_recurrence (S n) A'.
Proof.
  intros HA HAA'.
  rewrite !erlang_b_recurrence_succ.
  pose proof (recurrence_bounds A HA n) as Hb.
  assert (HA' : 0 < A') by lra.
  pose proof (recurrence_pos n A' HA') as Hb'.
  pose proof (recurrence_monotone_A n A A' HA (Qlt_le_weak _ _ HAA')) as Hm.
  set (b := erlang_b_recurrence n A) in *.
  set (b' := erlang_b_recurrence n A') in *.
  assert (Hc : 0 < inject_Z (Z.of_nat (S n))) by (apply inject_Z_pos; lia).
  set (c := inject_Z (Z.of_nat (S n))) in *.
  assert (Hx : 0 <= A * b) by nra.
  assert (Hx' : 0 < A' * b') by nra.
  assert (Hxx : A * b < A' * b') by nra.
  apply Qdiv_lt_cross; [lra | lra | nra].
Qed.

(** ** The primitive operations *)

Lemma overflows_false (x : Q) :
  overflows x = false <-> Qabs x < inject_Z DBL_OVERFLOW.
Proof. unfold overflows. apply Qle_bool_gt. Qed.

Lemma of_nat_ltb_0 (n : nat) : (Z.of_nat n <? 0)%Z = false.
Proof. apply Z.ltb_ge. lia. Qed.

Lemma fact_Z_eqb_0 (n : nat) : (fact_Z n =? 0)%Z = false.
Proof. apply Z.eqb_neq. pose proof (fact_Z_pos n). lia. Qed.

Lemma term_of_nat (A : Q) (n : nat) :
  term A (Z.of_nat n) =
  if overflows (inject_Z (Z.of_nat n)) || overflows (A ^ Z.of_nat n)
     || (LONG_MAX <? Z.of_nat n)%Z || overflows (inject_Z (fact_Z n))
  then Raise OverflowError
  else Ok (closed_term A n).
Proof.
  unfold term, float_pow.
  destruct (overflows (inject_Z (Z.of_nat n))); [reflexivity|].
  rewrite of_nat_ltb_0. cbn [andb orb].
  destruct (overflows (A ^ Z.of_nat n)); [reflexivity|].
  cbn [bind orb]. unfold factorial. rewrite of_nat_ltb_0.
  destruct (LONG_MAX <? Z.of_nat n)%Z; [reflexivity|].
  cbn [bind orb]. unfold float_div_int. rewrite Nat2Z.id, fact_Z_eqb_0.
  destruct (overflows (inject_Z (fact_Z n))); reflexivity.
Qed.

Lemma term_Ok_inv (A : Q) (n : nat) (t : Q) :
  term A (Z.of_nat n) = Ok t -> t = closed_term A n.
Proof.
  rewrite term_of_nat.
  match goal with |- context [if ?b then _ else _] => destruct b end;
    congruence.
Qed.

Lemma term_Raise_inv (A : Q) (n : nat) (e : exn) :
  term A (Z.of_nat n) = Raise e -> e = OverflowError.
Proof.
  rewrite term_of_nat.
  match goal with |- context [if ?b then _ else _] => destruct b end;
    congruence.
Qed.

Lemma term_Ok_iff (A : Q) (n : nat) :
  term A (Z.of_nat n) = Ok (closed_term A n) <->
  overflows (inject_Z (Z.of_nat n)) = false /\
  overflows (A ^ Z.of_nat n) = false /\
  (LONG_MAX <? Z.of_nat n)%Z = false /\
  overflows (inject_Z (fact_Z n)) = false.
Proof.
  rewrite term_of_nat.
  destruct (overflows (inject_Z (Z.of_nat n)));
    destruct (overflows (A ^ Z.of_nat n));
    destruct (LONG_MAX <? Z.of_nat n)%Z;
    destruct (overflows (inject_Z (fact_Z n)));
    cbn [orb]; intuition congruence.
Qed.

(** A smaller non-negative traffic overflows no sooner. *)
Lemma term_monotone_A (A A' : Q) (n : nat) :
  0 <= A -> A <= A' ->
  term A' (Z.of_nat n) = Ok (closed_term A' n) ->
  term A (Z.of_nat n) = Ok (closed_term A n).
Proof.
  intros HA HAA'. rewrite !term_Ok_iff.
  intros (H1 & H2 & H3 & H4). repeat split; try assumption.
  apply overflows_false. apply overflows_false in H2.
  pose proof (Qpower_nat_le A A' n HA HAA') as Hp.
  pose proof (Qpower_0_le A (Z.of_nat n) HA) as Hp0.
  assert (HA' : 0 <= A') by lra.
  pose proof (Qpower_0_le A' (Z.of_nat n) HA') as Hp0'.
  rewrite Qabs_pos in * by assumption. lra.
Qed.

Lemma terms_ok_monotone_A (A A' : Q) (n : nat) :
  0 <= A -> A <= A' -> terms_ok A' n -> terms_ok A n.
Proof.
  intros HA HAA' H k Hk. apply (term_monotone_A A A'); auto.
Qed.

Lemma terms_ok_le (A : Q) (n m : nat) :
  (n <= m)%nat -> terms_ok A m -> terms_ok A n.
Proof. intros Hnm H k Hk. apply H. lia. Qed.

(** ** The sum of the terms *)

Lemma sum_terms_app (A : Q) (l1 l2 : list Z) (acc : Q) :
  sum_terms A acc (l1 ++ l2) = (s <- sum_terms A acc l1 ;; sum_terms A s l2).
Proof.
  revert acc. induction l1 as [|k l1 IH]; intro acc; simpl.
  - reflexivity.
  - destruct (term A k) as [t|e]; simpl; [apply IH | reflexivity].
Qed.

Lemma range_succ (n : nat) :
  range (Z.of_nat (S n)) = range (Z.of_nat n) ++ [Z.of_nat n].
Proof.
  unfold range. rewrite !Nat2Z.id, seq_S, map_app. reflexivity.
Qed.

Lemma sum_range_complete (A : Q) (n : nat) (acc : Q) :
  terms_ok A n ->
  exists s, sum_terms A acc (range (Z.of_nat (S n))) = Ok s /\
            s == acc + series (closed_term A) n.
Proof.
  revert acc. induction n as [|n IH]; intros acc H.
  - change (range (Z.of_nat 1)) with [Z.of_nat 0]. cbn [sum_terms].
    rewrite (H O) by lia. cbn [bind]. eexists. split; reflexivity.
  - rewrite range_succ, sum_terms_app.
    destruct (IH acc (terms_ok_le A n (S n) (Nat.le_succ_diag_r n) H))
      as (s & Es & Hs).
    rewrite Es. cbn [bind]. cbn [sum_terms].
    rewrite (H (S n)) by lia. cbn [bind].
    eexists. split; [reflexivity|]. cbn [series]. rewrite Hs. ring.
Qed.

Lemma sum_range_sound (A : Q) (n : nat) (acc s : Q) :
  sum_terms A acc (range (Z.of_nat (S n))) = Ok s -> terms_ok A n.
Proof.
  revert acc s. induction n as [|n IH]; intros acc s.
  - change (range (Z.of_nat 1)) with [Z.of_nat 0]. cbn [sum_terms].
    destruct (term A (Z.of_nat 0)) as [t|e] eqn:E; cbn [bind sum_terms]; [|intro X; discriminate X].
    intros _ k Hk. assert (k = O) by lia. subst k.
    rewrite E. f_equal. apply term_Ok_inv. exact E.
  - rewrite range_succ, sum_terms_app.
    destruct (sum_terms A acc (range (Z.of_nat (S n)))) as [s1|e] eqn:E1;
      cbn [bind sum_terms]; [|intro X; discriminate X].
    destruct (term A (Z.of_nat (S n))) as [t|e] eqn:E; cbn [bind sum_terms]; [|intro X; discriminate X].
    intros _ k Hk.
    destruct (Nat.eq_dec k (S n)) as [->|Hne].
    + rewrite E. f_equal. apply term_Ok_inv. exact E.
    + apply (IH acc s1 E1). lia.
Qed.

Lemma sum_range_Raise (A : Q) (n : nat) (acc : Q) (e : exn) :
  sum_terms A acc (range (Z.of_nat (S n))) = Raise e -> e = OverflowError.
Proof.
  revert acc. induction n as [|n IH]; intros acc.
  - change (range (Z.of_nat 1)) with [Z.of_nat 0]. cbn [sum_terms].
    destruct (term A (Z.of_nat 0)) as [t|e'] eqn:E; cbn [bind sum_terms];
      [intro X; discriminate X|].
    intro H. injection H as <-. apply (term_Raise_inv A O). exact E.
  - rewrite range_succ, sum_terms_app.
    destruct (sum_terms A acc (range (Z.of_nat (S n)))) as [s1|e'] eqn:E1;
      cbn [bind sum_terms].
    + destruct (term A (Z.of_nat (S n))) as [t|e'] eqn:E; cbn [bind sum_terms];
        [intro X; discriminate X|].
      intro H. injection H as <-. apply (term_Raise_inv A (S n)). exact E.
    + intro H. injection H as <-. apply (IH acc). exact E1.
Qed.

(** ** The body of [erlang_b] *)

Lemma erlang_b_try_unfold (n : nat) (A : Q) :
  erlang_b_try (Z.of_nat n) A =
  (numerator <- term A (Z.of_nat n) ;;
   denominator <- sum_terms A 0 (range (Z.of_nat (S n))) ;;
   float_div numerator denominator).
Proof.
  unfold erlang_b_try. rewrite Nat2Z.inj_succ. reflexivity.
Qed.

Lemma erlang_b_try_complete (n : nat) (A : Q) :
  0 <= A -> terms_ok A n ->
  exists v, erlang_b_try (Z.of_nat n) A = Ok v /\
            v == erlang_b_closed_form n A.
Proof.
  intros HA H. rewrite erlang_b_try_unfold.
  rewrite (H n) by lia. cbn [bind].
  destruct (sum_range_complete A n 0 H) as (s & Es & Hs).
  rewrite Es. cbn [bind]. unfold float_div.
  pose proof (series_ge_1 A HA n) as H1.
  destruct (Qeq_bool s 0) eqn:E0.
  - apply Qeq_bool_iff in E0. lra.
  - eexists. split; [reflexivity|].
    unfold erlang_b_closed_form. rewrite Hs.
    field. lra.
Qed.

Lemma erlang_b_try_sound (n : nat) (A : Q) (v : Q) :
  erlang_b_try (Z.of_nat n) A = Ok v -> terms_ok A n.
Proof.
  rewrite erlang_b_try_unfold.
  destruct (term A (Z.of_nat n)) as [t|e]; cbn [bind sum_terms]; [|intro X; discriminate X].
  destruct (sum_terms A 0 (range (Z.of_nat (S n)))) as [s|e] eqn:Es;
    cbn [bind sum_terms]; [|intro X; discriminate X].
  intros _. apply (sum_range_sound A n 0 s Es).
Qed.

Lemma erlang_b_try_Raise (n : nat) (A : Q) (e : exn) :
  0 <= A -> erlang_b_try (Z.of_nat n) A = Raise e -> e = OverflowError.
Proof.
  intros HA. rewrite erlang_b_try_unfold.
  destruct (term A (Z.of_nat n)) as [t|e'] eqn:Et; cbn [bind].
  - destruct (sum_terms A 0 (range (Z.of_nat (S n)))) as [s|e'] eqn:Es; cbn [bind].
    + pose proof (sum_range_sound A n 0 s Es) as Hok.
      destruct (sum_range_complete A n 0 Hok) as (s' & Es' & Hs').
      assert (s' = s) by congruence. subst s'.
      pose proof (series_ge_1 A HA n) as H1.
      unfold float_div. destruct (Qeq_bool s 0) eqn:E0; [|intro X; discriminate X].
      apply Qeq_bool_iff in E0. lra.
    + intro H. injection H as <-. apply (sum_range_Raise A n 0). exact Es.
  - intro H. injection H as <-. apply (term_Raise_inv A n). exact Et.
Qed.

(** ** [erlang_b] at a positive number of channels *)

Lemma erlang_b_pos_unfold (n : nat) (A : Q) :
  erlang_b (Z.of_nat (S n)) A =
  try_except_overflow_value (erlang_b_try (Z.of_nat (S n)) A) (Ok 1).
Proof.
  unfold erlang_b.
  replace (Z.of_nat (S n) =? 0)%Z with false; [reflexivity|].
  symmetry. apply Z.eqb_neq. lia.
Qed.

(** Either every term is in range and the result is the closed form, or
    the body overflows and the result is the sentinel. *)
Lemma erlang_b_cases (n : nat) (A : Q) :
  0 <= A ->
  (terms_ok A (S n) /\
   exists v, erlang_b_try (Z.of_nat (S n)) A = Ok v /\
             erlang_b (Z.of_nat (S n)) A = Ok v /\
             v == erlang_b_closed_form (S n) A)
  \/
  (erlang_b_try (Z.of_nat (S n)) A = Raise OverflowError /\
   erlang_b (Z.of_nat (S n)) A = Ok 1).
Proof.
  intro HA. rewrite erlang_b_pos_unfold.
  destruct (erlang_b_try (Z.of_nat (S n)) A) as [v|e] eqn:E.
  - left. pose proof (erlang_b_try_sound _ _ _ E) as Hok.
    split; [exact Hok|].
    destruct (erlang_b_try_complete (S n) A HA Hok) as (v' & E' & Hv').
    assert (v' = v) by congruence. subst v'.
    exists v. repeat split; try reflexivity. exact Hv'.
  - right. pose proof (erlang_b_try_Raise _ _ _ HA E). subst e.
    split; reflexivity.
Qed.

Lemma erlang_b_terms_ok (n : nat) (A : Q) :
  0 <= A -> terms_ok A (S n) ->
  exists v, erlang_b (Z.of_nat (S n)) A = Ok v /\
            v == erlang_b_recurrence (S n) A.
Proof.
  intros HA Hok.
  destruct (erlang_b_try_complete (S n) A HA Hok) as (v & E & Hv).
  exists v. rewrite erlang_b_pos_unfold, E. split; [reflexivity|].
  rewrite Hv. apply closed_form_recurrence. exact HA.
Qed.

Lemma erlang_b_zero (A : Q) :
  erlang_b 0 A = Ok (if Qltb 0 A then 1 else 0).
Proof. reflexivity. Qed.

(** Outside [A >= 0] the [except] clause is not enough: with one channel
    and [A = -1] the denominator [1 + A] is zero, and the
    [ZeroDivisionError] escapes. *)
Example erlang_b_negative_traffic :
  erlang_b 1 (-1) = Raise ZeroDivisionError.
Proof. reflexivity. Qed.

(** The sentinel: [171!] is out of the range of a double. *)
Example erlang_b_171_channels : erlang_b 171 5 = Ok 1.
Proof. vm_compute. reflexivity. Qed.

(** [erlang_b] returns a value, between 0 and 1, whenever [N >= 0] and
    [A >= 0]. *)
Lemma erlang_b_total (N : Z) (A : Q) :
  (0 <= N)%Z -> 0 <= A ->
  exists v, erlang_b N A = Ok v /\ 0 <= v <= 1.
Proof.
  intros HN HA.
  rewrite <- (Z2Nat.id N HN). destruct (Z.to_nat N) as [|n].
  - change (Z.of_nat 0) with 0%Z. rewrite erlang_b_zero.
    eexists. split; [reflexivity|]. destruct (Qltb 0 A); lra.
  - destruct (erlang_b_cases n A HA) as [(Hok & v & _ & E & Hv) | (_ & E)].
    + exists v. split; [exact E|].
      rewrite Hv, (closed_form_recurrence A HA (S n)).
      apply recurrence_bounds. exact HA.
    + exists 1. split; [exact E | lra].
Qed.

Lemma overflow_free_terms_ok (n : nat) (A : Q) :
  0 <= A -> overflow_free (Z.of_nat (S n)) A -> terms_ok A (S n).
Proof.
  intros HA H.
  destruct (erlang_b_cases n A HA) as [(Hok & _) | (E & _)];
    [exact Hok | contradiction].
Qed.


(** ** When the direct evaluation overflows *)

Lemma fact_Z_monotone (n m : nat) : (n <= m)%nat -> (fact_Z n <= fact_Z m)%Z.
Proof.
  intro H. induction H as [|m H IH].
  - lia.
  - change (fact_Z (S m)) with (Z.of_nat (S m) * fact_Z m)%Z.
    pose proof (fact_Z_pos m). nia.
Qed.

Lemma overflows_inject_Z (z : Z) :
  (0 <= z)%Z -> overflows (inject_Z z) = false <-> (z < DBL_OVERFLOW)%Z.
Proof.
  intro Hz. rewrite overflows_false.
  rewrite Qabs_pos by (change 0 with (inject_Z 0); rewrite <- Zle_Qle; exact Hz).
  rewrite <- Zlt_Qlt. reflexivity.
Qed.

(** The factorial of 170 is the last one in the range of a double. *)
Lemma fact_Z_170_171 :
  (fact_Z 170 < DBL_OVERFLOW)%Z /\ (DBL_OVERFLOW <= fact_Z 171)%Z.
Proof. split; vm_compute; [reflexivity | discriminate]. Qed.

(** The evaluation is free of overflow exactly when [N!] and [A^N] are in
    the range of a double, that is when [N <= 170] and
    [A^N < 2^1024 - 2^970]. *)
Lemma overflow_free_iff (N : Z) (A : Q) :
  (1 <= N)%Z -> 0 <= A ->
  overflow_free N A <-> (N <= 170)%Z /\ A ^ N < inject_Z DBL_OVERFLOW.
Proof.
  intros HN HA.
  as_successor N E.
  set (n := (Z.to_nat N - 1)%nat) in *.
  destruct fact_Z_170_171 as (H170 & H171).
  split.
  - intro Hfree. rewrite E in Hfree.
    pose proof (overflow_free_terms_ok n A HA Hfree (S n) (le_n _)) as Ht.
    apply term_Ok_iff in Ht. destruct Ht as (_ & Hp & _ & Hf).
    split.
    + apply overflows_inject_Z in Hf; [|pose proof (fact_Z_pos (S n)); lia].
      destruct (Z_le_gt_dec N 170) as [Hle|Hgt]; [exact Hle|].
      assert (Hm : (171 <= S n)%nat) by lia.
      apply fact_Z_monotone in Hm. lia.
    + apply overflows_false in Hp.
      rewrite Qabs_pos in Hp by (apply Qpower_0_le; exact HA).
      rewrite E. exact Hp.
  - intros (H170N & Hpow). rewrite E in Hpow |- *.
    assert (Hok : terms_ok A (S n)).
    { intros k Hk. apply term_Ok_iff.
      assert (Hk170 : (k <= 170)%nat) by lia.
      split; [|split; [|split]].
      - apply overflows_inject_Z; [lia|].
        assert (170 < DBL_OVERFLOW)%Z by (vm_compute; reflexivity). lia.
      - apply overflows_false.
        rewrite Qabs_pos by (apply Qpower_0_le; exact HA).
        destruct (Qlt_le_dec A 1) as [HA1|HA1].
        + pose proof (Qpower_nat_le A 1 k HA (Qlt_le_weak _ _ HA1)) as Hle.
          rewrite Qpower_1 in Hle.
          assert (1 < inject_Z DBL_OVERFLOW) by (vm_compute; reflexivity).
          lra.
        + assert (Hkn : (Z.of_nat k <= Z.of_nat (S n))%Z) by lia.
          pose proof (Qpower_le_compat_l A _ _ Hkn HA1). lra.
      - apply Z.ltb_ge. unfold LONG_MAX.
        assert (170 <= 2 ^ 63 - 1)%Z by (vm_compute; discriminate). lia.
      - apply overflows_inject_Z; [pose proof (fact_Z_pos k); lia|].
        apply fact_Z_monotone in Hk170. lia. }
    destruct (erlang_b_try_complete (S n) A HA Hok) as (v & Ev & _).
    unfold overflow_free. rewrite Ev. discriminate.
Qed.

Lemma erlang_b_nondecreasing_A (N : Z) (A A' : Q) :
  (1 <= N)%Z -> 0 <= A -> A <= A' ->
  exists v v', erlang_b N A = Ok v /\ erlang_b N A' = Ok v' /\ v <= v'.
Proof.
  intros HN HA HAA'.
  assert (HA' : 0 <= A') by lra.
  as_successor N E.
  rewrite E. set (n := (Z.to_nat N - 1)%nat).
  destruct (erlang_b_cases n A' HA') as [(Hok' & v' & _ & Ev' & Hv') | (_ & Ev')].
  - pose proof (terms_ok_monotone_A A A' (S n) HA HAA' Hok') as Hok.
    destruct (erlang_b_terms_ok n A HA Hok) as (v & Ev & Hv).
    exists v, v'. repeat split; try assumption.
    rewrite Hv, Hv', (closed_form_recurrence A' HA' (S n)).
    apply recurrence_monotone_A; assumption.
  - destruct (erlang_b_total (Z.of_nat (S n)) A) as (v & Ev & Hv);
      [lia | exact HA |].
    exists v, 1. repeat split; try assumption. lra.
Qed.

Lemma erlang_b_nonincreasing_N (A : Q) (N N' : Z) :
  0 < A -> (0 <= N)%Z -> (N <= N')%Z -> overflow_free N' A ->
  exists v v', erlang_b N A = Ok v /\ erlang_b N' A = Ok v' /\ v' <= v.
Proof.
  intros HA HN HNN' Hfree.
  assert (HA0 : 0 <= A) by lra.
  assert (E' : N' = Z.of_nat (Z.to_nat N')) by lia.
  assert (E : N = Z.of_nat (Z.to_nat N)) by lia.
  rewrite E, E'. rewrite E' in Hfree.
  assert (Hle : (Z.to_nat N <= Z.to_nat N')%nat) by lia.
  destruct (Z.to_nat N') as [|n'].
  - assert (E0 : Z.to_nat N = O) by lia. rewrite E0.
    change (Z.of_nat 0) with 0%Z. rewrite erlang_b_zero.
    eexists. eexists. repeat split. lra.
  - pose proof (overflow_free_terms_ok n' A HA0 Hfree) as Hok'.
    destruct (erlang_b_terms_ok n' A HA0 Hok') as (v' & Ev' & Hv').
    destruct (Z.to_nat N) as [|n].
    + change (Z.of_nat 0) with 0%Z. rewrite erlang_b_zero.
      apply Qltb_lt in HA. rewrite HA.
      exists 1, v'. repeat split; try assumption.
      rewrite Hv'. apply recurrence_bounds. exact HA0.
    + pose proof (terms_ok_le A (S n) (S n') Hle Hok') as Hok.
      destruct (erlang_b_terms_ok n A HA0 Hok) as (v & Ev & Hv).
      exists v, v'. repeat split; try assumption.
      rewrite Hv, Hv'. apply recurrence_decreasing; assumption.
Qed.

(** Below a traffic [A] whose blocking probability is under 1, the
    blocking probability is strictly smaller. *)
Lemma erlang_b_strictly_below (N : Z) (x A Pr : Q) :
  (1 <= N)%Z -> 0 <= x -> x < A -> erlang_b N A = Ok Pr -> Pr < 1 ->
  exists v, erlang_b N x = Ok v /\ v < Pr.
Proof.
  intros HN Hx HxA EA HPr.
  assert (HA : 0 <= A) by lra.
  as_successor N E.
  rewrite E in EA |- *. set (n := (Z.to_nat N - 1)%nat) in *.
  destruct (erlang_b_cases n A HA) as [(Hok & w & _ & Ew & Hw) | (_ & Ew)].
  - assert (w = Pr) by congruence. subst w.
    pose proof (terms_ok_monotone_A x A (S n) Hx (Qlt_le_weak _ _ HxA) Hok)
      as Hokx.
    destruct (erlang_b_terms_ok n x Hx Hokx) as (v & Ev & Hv).
    exists v. split; [exact Ev|].
    rewrite Hv, Hw, (closed_form_recurrence A HA (S n)).
    apply recurrence_strictly_monotone_A; assumption.
  - assert (Pr = 1) by congruence. subst Pr. lra.
Qed.



(** ** Blocking probability: the claims *)

(** In exact arithmetic, for [N >= 1] and [A >= 0] whose direct
    evaluation does not overflow, [erlang_b N A] is the Erlang B closed
    form [(A^N / N!) / sum_{k=0..N} (A^k / k!)].  In binary64 the two agree
    up to rounding only: [erlang_b(1, 1e17)] is exactly [1.0]. *)
Lemma erlang_b_is_closed_form (N : Z) (A : Q) :
  (1 <= N)%Z -> 0 <= A -> overflow_free N A ->
  exists v, erlang_b N A = Ok v /\
            v == erlang_b_closed_form (Z.to_nat N) A.
Proof.
  intros HN HA Hfree.
  as_successor N E.
  rewrite E in Hfree |- *. rewrite Nat2Z.id.
  pose proof (overflow_free_terms_ok _ _ HA Hfree) as Hok.
  destruct (erlang_b_cases (Z.to_nat N - 1) A HA)
    as [(_ & v & _ & Ev & Hv) | (Er & _)].
  - exists v. split; assumption.
  - contradiction.
Qed.

Lemma erlang_b_is_closed_form_witness :
  exists v, erlang_b 10 5 = Ok v /\
            v == erlang_b_closed_form (Z.to_nat 10) 5.
Proof.
  apply (erlang_b_is_closed_form 10 5).
  - lia.
  - lra.
  - unfold overflow_free. vm_compute. discriminate.
Defined.




(** C4.  For [N >= 0] and [A >= 0], [erlang_b N A] returns a value, and an
    exception raised inside the [try] block is turned into the sentinel 1. *)
Theorem erlang_b_never_raises (N : Z) (A : Q) :
  (0 <= N)%Z -> 0 <= A ->
  (exists v, erlang_b N A = Ok v) /\
  (forall e, N <> 0%Z -> erlang_b_try N A = Raise e -> erlang_b N A = Ok 1).
Proof.
  intros HN HA. split.
  - destruct (erlang_b_total N A HN HA) as (v & Ev & _). exists v. exact Ev.
  - intros e HN0 He.
    as_successor N E.
    rewrite E in He |- *.
    destruct (erlang_b_cases (Z.to_nat N - 1) A HA)
      as [(_ & v & Et & _) | (_ & Ev)].
    + congruence.
    + exact Ev.
Qed.

Lemma erlang_b_never_raises_witness :
  (exists v, erlang_b 171 5 = Ok v) /\
  (forall e, 171%Z <> 0%Z -> erlang_b_try 171 5 = Raise e ->
             erlang_b 171 5 = Ok 1).
Proof.
  apply (erlang_b_never_raises 171 5); [lia | lra].
Defined.

(** C6.  With no channel, [erlang_b 0 A] is 1 for [A > 0] and 0 for
    [A = 0]. *)
Theorem erlang_b_no_channel (A : Q) :
  (0 < A -> erlang_b 0 A = Ok 1) /\ (A == 0 -> erlang_b 0 A = Ok 0).
Proof.
  rewrite erlang_b_zero. split; intro H.
  - apply Qltb_lt in H. rewrite H. reflexivity.
  - assert (L : A <= 0) by lra. apply Qltb_ge in L. rewrite L. reflexivity.
Qed.

Lemma erlang_b_no_channel_witness :
  erlang_b 0 5 = Ok 1 /\ erlang_b 0 0 = Ok 0.
Proof.
  split.
  - apply (proj1 (erlang_b_no_channel 5)). lra.
  - apply (proj2 (erlang_b_no_channel 0)). lra.
Defined.

(** C9.  For [N >= 0] and [A >= 0] the value returned by [erlang_b N A]
    lies in [[0, 1]], on the normal path and on the sentinel path. *)
Theorem erlang_b_in_unit_interval (N : Z) (A : Q) :
  (0 <= N)%Z -> 0 <= A ->
  exists v, erlang_b N A = Ok v /\ 0 <= v /\ v <= 1.
Proof.
  intros HN HA.
  destruct (erlang_b_total N A HN HA) as (v & Ev & H0 & H1).
  exists v. repeat split; assumption.
Qed.

Lemma erlang_b_in_unit_interval_witness :
  exists v, erlang_b 10 5 = Ok v /\ 0 <= v /\ v <= 1.
Proof.
  apply (erlang_b_in_unit_interval 10 5); [lia | lra].
Defined.

(** ** Minimum number of channels *)

Lemma range_from_nil (a b : Z) : (b <= a)%Z -> range_from a b = [].
Proof.
  intro H. unfold range_from.
  replace (Z.to_nat (b - a)) with O by lia. reflexivity.
Qed.

Lemma range_from_cons (a b : Z) :
  (a < b)%Z -> range_from a b = a :: range_from (a + 1) b.
Proof.
  intro H. unfold range_from.
  replace (Z.to_nat (b - a)) with (S (Z.to_nat (b - (a + 1)))) by lia.
  cbn [seq map]. f_equal.
  - lia.
  - rewrite <- seq_shift, map_map. apply map_ext. intro i. lia.
Qed.

Lemma erlang_b_inverse_loop_spec (A Pr : Q) (M : Z) (len : nat) :
  0 <= A ->
  forall a b, Z.to_nat (b - a) = len -> (0 <= a)%Z ->
  exists n,
    erlang_b_inverse_loop A Pr M (range_from a b) = Ok n /\
    (((a <= n < b)%Z /\ meets A Pr n /\
      forall k, (a <= k < n)%Z -> ~ meets A Pr k)
     \/
     (n = M /\ forall k, (a <= k < b)%Z -> ~ meets A Pr k)).
Proof.
  intro HA. induction len as [|len IH]; intros a b Hlen Ha.
  - rewrite range_from_nil by lia. cbn [erlang_b_inverse_loop].
    exists M. split; [reflexivity|]. right. split; [reflexivity|].
    intros k Hk. lia.
  - rewrite range_from_cons by lia. cbn [erlang_b_inverse_loop].
    destruct (erlang_b_total a A Ha HA) as (v & Ev & _).
    rewrite Ev. cbn [bind].
    destruct (Qle_bool v Pr) eqn:Hv.
    + exists a. split; [reflexivity|]. left.
      apply Qle_bool_iff in Hv.
      split; [lia|]. split; [exists v; split; assumption|].
      intros k Hk. lia.
    + apply Qle_bool_gt in Hv.
      assert (Hna : ~ meets A Pr a).
      { intros (w & Ew & Hw). assert (w = v) by congruence. subst w. lra. }
      destruct (IH (a + 1)%Z b) as (n & En & Hn); [lia | lia |].
      exists n. split; [exact En|].
      destruct Hn as [(Hr & Hm & Hmin) | (-> & Hnone)].
      * left. repeat split; try lia; [exact Hm|].
        intros k Hk. destruct (Z.eq_dec k a) as [->|Hne];
          [exact Hna | apply Hmin; lia].
      * right. split; [reflexivity|].
        intros k Hk. destruct (Z.eq_dec k a) as [->|Hne];
          [exact Hna | apply Hnone; lia].
Qed.

(** C3.  For [A > 0] and [0 < Pr < 1], [erlang_b_inverse A Pr M] returns
    the smallest [N] in [1..M] whose blocking probability is at most [Pr],
    and returns [M] when there is none. *)
Theorem erlang_b_inverse_smallest (A Pr : Q) (M : Z) :
  0 < A -> 0 < Pr -> Pr < 1 ->
  exists n,
    erlang_b_inverse A Pr M = Ok n /\
    (((1 <= n <= M)%Z /\ meets A Pr n /\
      forall k, (1 <= k < n)%Z -> ~ meets A Pr k)
     \/
     (n = M /\ forall k, (1 <= k <= M)%Z -> ~ meets A Pr k)).
Proof.
  intros HA HPr0 HPr1. unfold erlang_b_inverse.
  apply Qle_bool_gt in HA. rewrite HA.
  apply Qle_bool_gt in HPr1. rewrite HPr1.
  apply Qle_bool_gt in HA.
  destruct (erlang_b_inverse_loop_spec A Pr M (Z.to_nat (M + 1 - 1))
              (Qlt_le_weak _ _ HA) 1%Z (M + 1)%Z eq_refl)
    as (n & En & Hn); [lia|].
  exists n. split; [exact En|].
  destruct Hn as [(Hr & Hm & Hmin) | (-> & Hnone)].
  - left. repeat split; try lia; assumption.
  - right. split; [reflexivity|]. intros k Hk. apply Hnone. lia.
Qed.

Lemma erlang_b_inverse_smallest_witness :
  exists n,
    erlang_b_inverse 5 (1 # 100) 1000 = Ok n /\
    (((1 <= n <= 1000)%Z /\ meets 5 (1 # 100) n /\
      forall k, (1 <= k < n)%Z -> ~ meets 5 (1 # 100) k)
     \/
     (n = 1000%Z /\ forall k, (1 <= k <= 1000)%Z -> ~ meets 5 (1 # 100) k)).
Proof.
  apply (erlang_b_inverse_smallest 5 (1 # 100) 1000); lra.
Defined.

(** C8.  For [A = 5] and [Pr = 0.01], with the default [max_channels] of
    1000, [erlang_b_inverse] returns 11. *)
Theorem erlang_b_inverse_5_one_percent :
  erlang_b_inverse 5 double_0_01 default_max_channels = Ok 11%Z.
Proof. vm_compute. reflexivity. Qed.

(** ** The float sum stays finite

    Python adds the terms as floats, and a float sum that leaves the range
    becomes [inf] without an exception.  That does not happen here: when
    every term is in range, so is their sum. *)

Lemma fact_Z_ge_pow2 (n : nat) : (2 ^ Z.of_nat n <= fact_Z (S n))%Z.
Proof.
  induction n as [|n IH].
  - vm_compute. discriminate.
  - change (fact_Z (S (S n))) with (Z.of_nat (S (S n)) * fact_Z (S n))%Z.
    rewrite Nat2Z.inj_succ, Z.pow_succ_r by lia. nia.
Qed.

Lemma closed_term_succ_le (A : Q) (n : nat) :
  0 <= A -> closed_term A (S n) <= A ^ Z.of_nat (S n) / 2 ^ Z.of_nat n.
Proof.
  intro HA. unfold closed_term.
  pose proof (Qpower_0_le A (Z.of_nat (S n)) HA) as Hp.
  pose proof (pow2_ge_1 n) as H2.
  pose proof (inject_Z_pos _ (fact_Z_pos (S n))) as Hf.
  apply Qdiv_le_cross; [exact Hf | lra |].
  assert (Hle : 2 ^ Z.of_nat n <= inject_Z (fact_Z (S n))).
  { rewrite <- (Zpower_Qpower 2 (Z.of_nat n)) by lia.
    rewrite <- Zle_Qle. apply fact_Z_ge_pow2. }
  nra.
Qed.

Lemma series_le_pow (A : Q) (n : nat) :
  1 <= A ->
  series (closed_term A) n <= A ^ Z.of_nat n * (3 - 2 / 2 ^ Z.of_nat n).
Proof.
  intro HA. assert (HA0 : 0 <= A) by lra.
  induction n as [|n IH].
  - cbn [series]. rewrite closed_term_0.
    change (A ^ Z.of_nat 0) with 1. change (2 ^ Z.of_nat 0) with 1.
    assert (E : 1 * (3 - 2 / 1) == 1) by reflexivity. rewrite E. lra.
  - cbn [series].
    pose proof (closed_term_succ_le A n HA0) as Ht.
    rewrite (Qpower_succ_nat 2 n).
    rewrite (Qpower_succ_nat A n) in *.
    pose proof (Qpower_0_le A (Z.of_nat n) HA0) as Hp.
    pose proof (pow2_ge_1 n) as H2.
    set (p := A ^ Z.of_nat n) in *. set (q := 2 ^ Z.of_nat n) in *.
    set (i := / q).
    assert (Hi : 0 < i) by (apply Qinv_lt_0_compat; lra).
    assert (E1 : 2 / q == 2 * i) by reflexivity.
    assert (E2 : 2 / (q * 2) == i) by (unfold i; field; lra).
    assert (E3 : p * A / q == p * A * i) by reflexivity.
    rewrite E1 in IH. rewrite E2. rewrite E3 in Ht.
    assert (Hi1 : i <= 1).
    { unfold i. apply Qle_shift_inv_r; lra. }
    assert (Hk : 0 <= p * (A - 1)) by nra.
    assert (Hm : 0 <= p * (A - 1) * (3 - 2 * i)) by nra.
    assert (Eg : p * A * (3 - i) - (p * (3 - 2 * i) + p * A * i)
                 == p * (A - 1) * (3 - 2 * i)) by ring.
    lra.
Qed.

Lemma series_monotone (f g : nat -> Q) (n : nat) :
  (forall k, (k <= n)%nat -> f k <= g k) -> series f n <= series g n.
Proof.
  induction n as [|n IH]; intro H; cbn [series].
  - apply H. lia.
  - assert (H1 : series f n <= series g n) by (apply IH; intros; apply H; lia).
    assert (H2 : f (S n) <= g (S n)) by (apply H; lia).
    lra.
Qed.

Lemma closed_term_monotone_A (A A' : Q) (k : nat) :
  0 <= A -> A <= A' -> closed_term A k <= closed_term A' k.
Proof.
  intros HA HAA'. unfold closed_term.
  pose proof (inject_Z_pos _ (fact_Z_pos k)) as Hf.
  pose proof (Qpower_nat_le A A' k HA HAA') as Hp.
  apply Qdiv_le_cross; [exact Hf | exact Hf | nra].
Qed.

Lemma series_in_range (n : nat) (A : Q) :
  0 <= A -> A <= inject_Z DBL_MAX -> terms_ok A n ->
  series (closed_term A) n < inject_Z DBL_OVERFLOW.
Proof.
  intros HA Hmax Hok.
  pose proof (Hok n (le_n n)) as Hn.
  apply term_Ok_iff in Hn. destruct Hn as (_ & Hp & _ & Hf).
  apply overflows_false in Hp.
  rewrite Qabs_pos in Hp by (apply Qpower_0_le; exact HA).
  apply overflows_inject_Z in Hf; [|pose proof (fact_Z_pos n); lia].
  assert (Hn170 : (n <= 170)%nat).
  { destruct (le_gt_dec n 170) as [H|H]; [exact H|].
    assert (Hm : (171 <= n)%nat) by lia.
    apply fact_Z_monotone in Hm. destruct fact_Z_170_171. lia. }
  destruct n as [|[|n]].
  - cbn [series]. rewrite closed_term_0. vm_compute. reflexivity.
  - cbn [series]. rewrite closed_term_0.
    assert (E : closed_term A 1 == A).
    { unfold closed_term. change (inject_Z (fact_Z 1)) with 1.
      change (Z.of_nat 1) with 1%Z. rewrite Qpower_1_r. field. }
    rewrite E.
    assert (inject_Z DBL_MAX + 1 < inject_Z DBL_OVERFLOW)
      by (vm_compute; reflexivity).
    lra.
  - set (m := S (S n)) in *.
    destruct (Qlt_le_dec A 1) as [HA1 | HA1].
    + assert (H1 : series (closed_term A) m <= series (closed_term 1) m).
      { apply series_monotone. intros k _.
        apply closed_term_monotone_A; lra. }
      pose proof (series_le_pow 1 m (Qle_refl 1)) as H2.
      rewrite Qpower_1 in H2.
      pose proof (pow2_ge_1 m) as Hq.
      assert (Hi : 0 <= 2 / 2 ^ Z.of_nat m) by (apply Qle_shift_div_l; lra).
      assert (3 < inject_Z DBL_OVERFLOW) by (vm_compute; reflexivity).
      lra.
    + assert (HA0 : 0 <= A) by lra.
      destruct (Qlt_le_dec A 12) as [HA12 | HA12].
      * pose proof (series_le_pow A m HA1) as H2.
        pose proof (pow2_ge_1 m) as Hq.
        assert (Hi : 0 <= 2 / 2 ^ Z.of_nat m) by (apply Qle_shift_div_l; lra).
        pose proof (Qpower_0_le A (Z.of_nat m) HA0) as Hpm.
        pose proof (Qpower_nat_le A 12 m HA0 (Qlt_le_weak _ _ HA12)) as H12.
        assert (Hm170 : (Z.of_nat m <= 170)%Z) by lia.
        pose proof (Qpower_le_compat_l 12 _ _ Hm170) as H170.
        assert (3 * 12 ^ 170 < inject_Z DBL_OVERFLOW)
          by (vm_compute; reflexivity).
        assert (H1le12 : 1 <= 12) by lra. specialize (H170 H1le12).
        set (pm := A ^ Z.of_nat m) in *. set (i := 2 / 2 ^ Z.of_nat m) in *.
        assert (series (closed_term A) m <= pm * 3) by nra.
        lra.
      * change (series (closed_term A) m)
          with (series (closed_term A) (S n) + closed_term A m).
        pose proof (series_le_pow A (S n) HA1) as H2.
        pose proof (closed_term_succ_le A (S n) HA0) as Ht.
        fold m in Ht.
        rewrite (Qpower_succ_nat 2 n) in *.
        pose proof (pow2_ge_1 n) as Hq.
        unfold m in Ht, Hp. rewrite (Qpower_succ_nat A (S n)) in *.
        pose proof (Qpower_0_le A (Z.of_nat (S n)) HA0) as Hpn.
        set (p := A ^ Z.of_nat (S n)) in *. set (q := 2 ^ Z.of_nat n) in *.
        assert (Hi : 0 <= 2 / (q * 2)) by (apply Qle_shift_div_l; lra).
        assert (Ht2 : p * A / (q * 2) <= p * A / 2).
        { assert (Hpa0 : 0 <= p * A) by nra.
          apply Qdiv_le_cross; [lra | lra |].
          clear - Hpa0 Hq. nra. }
        assert (Eh : p * A / 2 == p * A * (1 # 2)) by reflexivity.
        set (i := 2 / (q * 2)) in *.
        assert (Hs : series (closed_term A) (S n) <= p * 3) by nra.
        assert (Hpa : p * 12 <= p * A) by nra.
        unfold m. rewrite Eh in Ht2. lra.
Qed.

(** The denominator of [erlang_b] is a finite float. *)
Lemma denominator_in_range (n : nat) (A s : Q) :
  0 <= A -> A <= inject_Z DBL_MAX ->
  sum_terms A 0 (range (Z.of_nat (S n))) = Ok s -> overflows s = false.
Proof.
  intros HA Hmax Es.
  pose proof (sum_range_sound A n 0 s Es) as Hok.
  destruct (sum_range_complete A n 0 Hok) as (s' & Es' & Hs').
  assert (s' = s) by congruence. subst s'.
  pose proof (series_ge_1 A HA n) as H1.
  pose proof (series_in_range n A HA Hmax Hok) as H2.
  apply overflows_false. rewrite Qabs_pos by lra. lra.
Qed.

(** ** Offered traffic: the bracketing loop *)

Lemma erlang_b_Ok (N : Z) (A : Q) :
  (1 <= N)%Z -> 0 <= A -> exists v, erlang_b N A = Ok v /\ 0 <= v <= 1.
Proof. intros HN HA. apply erlang_b_total; [lia | exact HA]. Qed.

(** The loop never ends in an exception, and never lowers [high]. *)
Lemma bracket_result (fuel : nat) (N : Z) (Pr max_A : Q) :
  (1 <= N)%Z ->
  forall h, 0 < h ->
  match bracket fuel N Pr max_A h with
  | None => True
  | Some (Raise _) => False
  | Some (Ok high) =>
      h <= high /\
      exists v, erlang_b N high = Ok v /\ (Pr <= v \/ max_A <= high)
  end.
Proof.
  intro HN. induction fuel as [|fuel IH]; intros h Hh; cbn [bracket].
  - exact I.
  - destruct (erlang_b_Ok N h HN (Qlt_le_weak _ _ Hh)) as (v & Ev & _).
    rewrite Ev.
    destruct (Qltb v Pr) eqn:E1; cbn [andb].
    + destruct (Qltb h max_A) eqn:E2.
      * assert (H2 : 0 < h * 2) by lra.
        specialize (IH (h * 2) H2).
        destruct (bracket fuel N Pr max_A (h * 2)) as [[high|e]|];
          [|exact IH|exact I].
        destruct IH as (Hle & Hv). split; [lra | exact Hv].
      * apply Qltb_ge in E2. split; [lra|].
        exists v. split; [exact Ev | right; exact E2].
    + apply Qltb_ge in E1. split; [lra|].
      exists v. split; [exact Ev | left; exact E1].
Qed.

(** With [max_A <= h * 2^f], [f + 1] units of fuel are enough. *)
Lemma bracket_terminates (f : nat) (N : Z) (Pr max_A : Q) :
  (1 <= N)%Z ->
  forall h, 0 < h -> max_A <= h * 2 ^ Z.of_nat f ->
  exists high, bracket (S f) N Pr max_A h = Some (Ok high) /\
               high <= h * 2 ^ Z.of_nat f.
Proof.
  intro HN. induction f as [|f IH]; intros h Hh Hmax.
  - change (2 ^ Z.of_nat 0) with 1 in *. cbn [bracket].
    destruct (erlang_b_Ok N h HN (Qlt_le_weak _ _ Hh)) as (v & Ev & _).
    rewrite Ev.
    assert (E2 : Qltb h max_A = false) by (apply Qltb_ge; lra).
    rewrite E2, andb_false_r. exists h. split; [reflexivity | lra].
  - rewrite Qpower_succ_nat in *.
    pose proof (pow2_ge_1 f) as Hp.
    set (p := 2 ^ Z.of_nat f) in *.
    change (bracket (S (S f)) N Pr max_A h) with
      (match erlang_b N h with
       | Raise e => Some (Raise e)
       | Ok v => if Qltb v Pr && Qltb h max_A
                 then bracket (S f) N Pr max_A (h * 2)
                 else Some (Ok h)
       end).
    destruct (erlang_b_Ok N h HN (Qlt_le_weak _ _ Hh)) as (v & Ev & _).
    rewrite Ev.
    destruct (Qltb v Pr && Qltb h max_A).
    + destruct (IH (h * 2)) as (high & Eh & Hhigh); [lra | lra |].
      exists high. split; [exact Eh|].
      rewrite Qpower_succ_nat. fold p. nra.
    + exists h. split; [reflexivity|].
      rewrite Qpower_succ_nat. fold p. nra.
Qed.

Lemma bracket_fuel_succ (fuel : nat) (N : Z) (Pr max_A : Q) :
  forall h r, bracket fuel N Pr max_A h = Some r ->
              bracket (S fuel) N Pr max_A h = Some r.
Proof.
  induction fuel as [|fuel IH]; intros h r H.
  - discriminate H.
  - change (bracket (S (S fuel)) N Pr max_A h) with
      (match erlang_b N h with
       | Raise e => Some (Raise e)
       | Ok v => if Qltb v Pr && Qltb h max_A
                 then bracket (S fuel) N Pr max_A (h * 2)
                 else Some (Ok h)
       end).
    cbn [bracket] in H.
    destruct (erlang_b N h) as [v|e]; [|exact H].
    destruct (Qltb v Pr && Qltb h max_A); [|exact H].
    apply IH. exact H.
Qed.

Lemma bracket_fuel_le (fuel fuel' : nat) (N : Z) (Pr max_A h : Q) (r : result Q) :
  (fuel <= fuel')%nat ->
  bracket fuel N Pr max_A h = Some r -> bracket fuel' N Pr max_A h = Some r.
Proof.
  intros Hle H. induction Hle as [|fuel' Hle IH].
  - exact H.
  - apply bracket_fuel_succ. exact IH.
Qed.

(** The default bound [1e6] is reached within 20 doublings of 1. *)
Lemma bracket_default (fuel : nat) (N : Z) (Pr : Q) :
  (1 <= N)%Z -> (21 <= fuel)%nat ->
  exists high, bracket fuel N Pr default_max_A 1 = Some (Ok high) /\
               1 <= high /\ high <= 1048576 /\
               exists v, erlang_b N high = Ok v /\
                         (Pr <= v \/ default_max_A <= high).
Proof.
  intros HN Hfuel.
  destruct (bracket_terminates 20 N Pr default_max_A HN 1) as (high & Eh & Hb).
  - lra.
  - unfold default_max_A. vm_compute. discriminate.
  - apply (bracket_fuel_le 21 fuel) in Eh; [|exact Hfuel].
    pose proof (bracket_result fuel N Pr default_max_A HN 1) as Hr.
    rewrite Eh in Hr. destruct Hr as (Hle & Hv); [lra|].
    exists high. repeat split; assumption.
Qed.

(** ** Offered traffic: the bisection loop *)

Lemma bisect_total (iters : nat) (N : Z) (Pr tol : Q) :
  (1 <= N)%Z ->
  forall low high, 0 <= low -> 0 <= high ->
  exists a, bisect iters N Pr tol low high = Ok a /\ 0 <= a.
Proof.
  intro HN. induction iters as [|iters IH]; intros low high Hl Hh;
    cbn [bisect].
  - eexists. split; [reflexivity|].
    apply Qle_shift_div_l; lra.
  - assert (Hm : 0 <= (low + high) / 2) by (apply Qle_shift_div_l; lra).
    destruct (erlang_b_Ok N _ HN Hm) as (v & Ev & _).
    rewrite Ev. cbn [bind].
    destruct (Qle_bool (Qabs (v - Pr)) tol).
    + eexists. split; [reflexivity | exact Hm].
    + destruct (Qltb v Pr); apply IH; assumption.
Qed.

(** Bisection around a traffic [A] whose blocking probability is the
    target: [A] stays in the bracket, so the loop ends on the tolerance
    test or with a bracket of width [(high - low) / 2^iters] around [A]. *)
Lemma bisect_round_trip (iters : nat) (N : Z) (A Pr tol : Q) :
  (1 <= N)%Z -> erlang_b N A = Ok Pr -> Pr < 1 ->
  forall low high, 0 <= low -> low < A -> A <= high ->
  exists a,
    bisect iters N Pr tol low high = Ok a /\ 0 <= a /\
    ((exists v, erlang_b N a = Ok v /\ Qabs (v - Pr) <= tol)
     \/ Qabs (a - A) <= (high - low) / 2 ^ Z.of_nat (S iters)).
Proof.
  intros HN EA HPr.
  induction iters as [|iters IH]; intros low high Hl HlA HAh; cbn [bisect].
  - eexists. split; [reflexivity|]. split.
    + apply Qle_shift_div_l; lra.
    + right. change (2 ^ Z.of_nat 1) with 2.
      set (m := (low + high) / 2).
      assert (Em : 2 * m == low + high) by (unfold m; field).
      set (w := (high - low) / 2).
      assert (Ew : 2 * w == high - low) by (unfold w; field).
      apply Qabs_Qle_condition. split; lra.
  - set (m := (low + high) / 2).
    assert (Em : 2 * m == low + high) by (unfold m; field).
    assert (Hm : 0 <= m) by lra.
    destruct (erlang_b_Ok N m HN Hm) as (val & Eval & _).
    rewrite Eval. cbn [bind].
    destruct (Qle_bool (Qabs (val - Pr)) tol) eqn:Etol.
    + exists m. split; [reflexivity|]. split; [exact Hm|].
      left. exists val. split; [exact Eval|].
      apply Qle_bool_iff. exact Etol.
    + pose proof (pow2_ge_1 (S iters)) as Hp.
      assert (Ehalf : forall lo hi, 2 * (hi - lo) == high - low ->
                (hi - lo) / 2 ^ Z.of_nat (S iters)
                == (high - low) / 2 ^ Z.of_nat (S (S iters))).
      { intros lo hi E. rewrite (Qpower_succ_nat 2 (S iters)), <- E.
        field. lra. }
      destruct (Qltb val Pr) eqn:Elt.
      * apply Qltb_lt in Elt.
        assert (HmA : m < A).
        { apply Qnot_le_lt. intro HAm.
          assert (HA0 : 0 <= A) by lra.
          destruct (erlang_b_nondecreasing_A N A m HN HA0 HAm)
            as (v & v' & Ev & Ev' & Hvv').
          assert (v = Pr) by congruence. assert (v' = val) by congruence.
          subst v v'. lra. }
        destruct (IH m high Hm HmA HAh) as (a & Ea & Ha & Hres).
        exists a. split; [exact Ea|]. split; [exact Ha|].
        destruct Hres as [Hres | Hres]; [left; exact Hres | right].
        rewrite <- (Ehalf m high); [exact Hres | lra].
      * apply Qltb_ge in Elt.
        assert (HAm : A <= m).
        { apply Qnot_lt_le. intro HmA.
          destruct (erlang_b_strictly_below N m A Pr HN Hm HmA EA HPr)
            as (v & Ev & Hv).
          assert (v = val) by congruence. subst v. lra. }
        destruct (IH low m Hl HlA HAm) as (a & Ea & Ha & Hres).
        exists a. split; [exact Ea|]. split; [exact Ha|].
        destruct Hres as [Hres | Hres]; [left; exact Hres | right].
        rewrite <- (Ehalf low m); [exact Hres | lra].
Qed.

(** ** Offered traffic: the claims *)

Lemma erlang_a_from_pr_interior (fuel : nat) (N : Z) (Pr tol : Q)
  (max_iter : Z) (max_A : Q) :
  (1 <= N)%Z -> 0 < Pr -> Pr < 1 ->
  erlang_a_from_pr fuel N Pr tol max_iter max_A =
  match bracket fuel N Pr max_A 1 with
  | None => None
  | Some (Raise _) => Some (Ok (Fin max_A))
  | Some (Ok high) =>
      match erlang_b N high with
      | Raise e => Some (Raise e)
      | Ok v =>
          if Qltb v Pr then Some (Ok (Fin max_A))
          else
            match bisect (Z.to_nat max_iter) N Pr tol 0 high with
            | Raise e => Some (Raise e)
            | Ok a => Some (Ok (Fin a))
            end
      end
  end.
Proof.
  intros HN H0 H1. unfold erlang_a_from_pr.
  skip_channel_check.
  apply Qle_bool_gt in H0. rewrite H0.
  apply Qle_bool_gt in H1. rewrite H1. reflexivity.
Qed.

Lemma erlang_a_from_pr_no_raise (fuel : nat) (N : Z) (Pr tol : Q)
  (max_iter : Z) (max_A : Q) (e : exn) :
  (1 <= N)%Z ->
  erlang_a_from_pr fuel N Pr tol max_iter max_A <> Some (Raise e).
Proof.
  intro HN.
  destruct (Qle_bool Pr 0) eqn:E0.
  { unfold erlang_a_from_pr.
    skip_channel_check.
    rewrite E0. discriminate. }
  destruct (Qle_bool 1 Pr) eqn:E1.
  { unfold erlang_a_from_pr.
    skip_channel_check.
    rewrite E0, E1. discriminate. }
  apply Qle_bool_gt in E0. apply Qle_bool_gt in E1.
  rewrite erlang_a_from_pr_interior by assumption.
  pose proof (bracket_result fuel N Pr max_A HN 1) as Hr.
  destruct (bracket fuel N Pr max_A 1) as [[high|e']|]; try discriminate.
  destruct Hr as (Hle & v & Ev & _); [lra|].
  rewrite Ev. destruct (Qltb v Pr); [discriminate|].
  destruct (bisect_total (Z.to_nat max_iter) N Pr tol HN 0 high)
    as (a & Ea & _); [lra | lra |].
  rewrite Ea. discriminate.
Qed.

(** With the default [max_A], any fuel from 21 on gives the same result. *)
Lemma erlang_a_from_pr_fuel (fuel : nat) (N : Z) (Pr tol : Q) (max_iter : Z) :
  (21 <= fuel)%nat ->
  erlang_a_from_pr fuel N Pr tol max_iter default_max_A =
  erlang_a_from_pr 21 N Pr tol max_iter default_max_A.
Proof.
  intro Hfuel. unfold erlang_a_from_pr.
  destruct (N <=? 0)%Z eqn:EN; [reflexivity|].
  destruct (Qle_bool Pr 0); [reflexivity|].
  destruct (Qle_bool 1 Pr); [reflexivity|].
  apply Z.leb_gt in EN.
  destruct (bracket_default 21 N Pr) as (high & Eh & _); [lia | lia |].
  rewrite (bracket_fuel_le 21 fuel N Pr default_max_A 1 (Ok high) Hfuel Eh), Eh.
  reflexivity.
Qed.

(** C5.  [erlang_a_from_pr] raises if and only if [N <= 0], and what it
    raises is [ValueError]; for [N >= 1] it returns 0 when [Pr <= 0] and
    infinity when [Pr >= 1]. *)
Theorem erlang_a_from_pr_boundary (fuel : nat) (N : Z) (Pr tol : Q)
  (max_iter : Z) (max_A : Q) :
  ((exists e, erlang_a_from_pr fuel N Pr tol max_iter max_A = Some (Raise e))
   <-> (N <= 0)%Z) /\
  ((N <= 0)%Z ->
   erlang_a_from_pr fuel N Pr tol max_iter max_A = Some (Raise ValueError)) /\
  ((1 <= N)%Z -> Pr <= 0 ->
   erlang_a_from_pr fuel N Pr tol max_iter max_A = Some (Ok (Fin 0))) /\
  ((1 <= N)%Z -> 1 <= Pr ->
   erlang_a_from_pr fuel N Pr tol max_iter max_A = Some (Ok PInf)).
Proof.
  assert (Hneg : (N <= 0)%Z ->
    erlang_a_from_pr fuel N Pr tol max_iter max_A = Some (Raise ValueError)).
  { intro H. unfold erlang_a_from_pr.
    apply Z.leb_le in H. rewrite H. reflexivity. }
  repeat split.
  - intros (e & He). destruct (Z_le_gt_dec N 0) as [H|H]; [exact H|].
    exfalso. apply (erlang_a_from_pr_no_raise fuel N Pr tol max_iter max_A e).
    + lia.
    + exact He.
  - intro H. exists ValueError. apply Hneg. exact H.
  - exact Hneg.
  - intros HN HPr. unfold erlang_a_from_pr.
    skip_channel_check.
    apply Qle_bool_iff in HPr. rewrite HPr. reflexivity.
  - intros HN HPr. unfold erlang_a_from_pr.
    skip_channel_check.
    assert (H0 : Qle_bool Pr 0 = false) by (apply Qle_bool_gt; lra).
    apply Qle_bool_iff in HPr. rewrite H0, HPr. reflexivity.
Qed.

Lemma erlang_a_from_pr_boundary_witness :
  erlang_a_from_pr 21 0 (1 # 2) default_tol default_max_iter default_max_A
  = Some (Raise ValueError) /\
  erlang_a_from_pr 21 5 0 default_tol default_max_iter default_max_A
  = Some (Ok (Fin 0)) /\
  erlang_a_from_pr 21 5 1 default_tol default_max_iter default_max_A
  = Some (Ok PInf).
Proof.
  split; [|split].
  - apply (erlang_a_from_pr_boundary 21 0 (1 # 2)). lia.
  - apply (erlang_a_from_pr_boundary 21 5 0); [lia | lra].
  - apply (erlang_a_from_pr_boundary 21 5 1); [lia | lra].
Defined.

(** C10.  For [N >= 1] and [0 < Pr < 1], [erlang_a_from_pr] with the
    default [max_A] terminates (21 units of fuel are enough for the
    doubling loop), raises nothing and returns a finite non-negative value;
    the doubling loop ends normally, so the [except Exception] handler
    around it is never entered. *)
Theorem erlang_a_from_pr_total (fuel : nat) (N : Z) (Pr tol : Q)
  (max_iter : Z) :
  (21 <= fuel)%nat -> (1 <= N)%Z -> 0 < Pr -> Pr < 1 ->
  (exists a,
      erlang_a_from_pr fuel N Pr tol max_iter default_max_A
      = Some (Ok (Fin a)) /\ 0 <= a) /\
  (exists high, bracket fuel N Pr default_max_A 1 = Some (Ok high)) /\
  (forall h, 0 <= h -> exists v, erlang_b N h = Ok v).
Proof.
  intros Hfuel HN H0 H1.
  destruct (bracket_default fuel N Pr HN Hfuel)
    as (high & Eh & Hh1 & _ & v & Ev & _).
  split; [|split].
  - rewrite erlang_a_from_pr_interior by assumption.
    rewrite Eh, Ev.
    destruct (Qltb v Pr).
    + exists default_max_A. split; [reflexivity|].
      unfold default_max_A. lra.
    + destruct (bisect_total (Z.to_nat max_iter) N Pr tol HN 0 high)
        as (a & Ea & Ha); [lra | lra |].
      rewrite Ea. exists a. split; [reflexivity | exact Ha].
  - exists high. exact Eh.
  - intros h Hh. destruct (erlang_b_Ok N h HN Hh) as (w & Ew & _).
    exists w. exact Ew.
Qed.

Lemma erlang_a_from_pr_total_witness :
  (exists a,
      erlang_a_from_pr 21 5 (1 # 50) default_tol default_max_iter default_max_A
      = Some (Ok (Fin a)) /\ 0 <= a) /\
  (exists high, bracket 21 5 (1 # 50) default_max_A 1 = Some (Ok high)) /\
  (forall h, 0 <= h -> exists v, erlang_b 5 h = Ok v).
Proof.
  apply (erlang_a_from_pr_total 21 5 (1 # 50)); [lia | lia | lra | lra].
Defined.

(** C7, as stated, fails: the bisection stops on the blocking probability,
    not on the traffic.  With 12 channels and [A = 1] the blocking
    probability is about [7.7e-10]; at the first midpoint [0.5] it is about
    [3.1e-13], within [tol = 1e-9] of the target, so [0.5] is returned:
    half of [A], not within [1e-3] of it. *)
Lemma round_trip_not_within_relative_tolerance :
  exists Pr a,
    erlang_b 12 1 = Ok Pr /\ 0 < Pr /\ Pr < 1 /\
    erlang_a_from_pr 21 12 Pr default_tol default_max_iter default_max_A
    = Some (Ok (Fin a)) /\
    ~ Qabs (a - 1) <= (1 # 1000) * 1.
Proof.
  eexists. exists (1 # 2).
  split; [vm_compute; reflexivity|].
  split; [vm_compute; reflexivity|].
  split; [vm_compute; reflexivity|].
  split; [vm_compute; reflexivity|].
  intro H. vm_compute in H. apply H. reflexivity.
Qed.

(** C7, amended.  For [N >= 1] and [0 < A <= max_A] whose blocking
    probability [Pr] lies strictly between 0 and 1, [erlang_a_from_pr N Pr]
    returns a finite [a >= 0] whose blocking probability is within [tol]
    of [Pr], or else, when the 100 bisections never met the tolerance, an
    [a] within [2^20 / 2^101] of [A]. *)
Theorem round_trip_probability (fuel : nat) (N : Z) (A Pr : Q) :
  (21 <= fuel)%nat -> (1 <= N)%Z -> 0 < A -> A <= default_max_A ->
  erlang_b N A = Ok Pr -> 0 < Pr -> Pr < 1 ->
  exists a,
    erlang_a_from_pr fuel N Pr default_tol default_max_iter default_max_A
    = Some (Ok (Fin a)) /\
    0 <= a /\
    ((exists v, erlang_b N a = Ok v /\ Qabs (v - Pr) <= default_tol)
     \/ Qabs (a - A) <= 1048576 / 2 ^ 101).
Proof.
  intros Hfuel HN HA HAmax EA H0 H1.
  assert (HA0 : 0 <= A) by lra.
  destruct (bracket_default fuel N Pr HN Hfuel)
    as (high & Eh & Hh1 & Hh2 & v & Ev & Hstop).
  rewrite erlang_a_from_pr_interior by assumption.
  rewrite Eh, Ev.
  assert (Hmono : A <= high -> Pr <= v).
  { intro HAh.
    destruct (erlang_b_nondecreasing_A N A high HN HA0 HAh)
      as (w & w' & Ew & Ew' & Hww').
    assert (w = Pr) by congruence. assert (w' = v) by congruence.
    subst w w'. exact Hww'. }
  destruct (Qltb v Pr) eqn:Elt.
  - apply Qltb_lt in Elt. exfalso.
    destruct Hstop as [Hstop | Hstop]; [lra|].
    assert (HAh : A <= high) by lra.
    specialize (Hmono HAh). lra.
  - apply Qltb_ge in Elt.
    assert (HAh : A <= high).
    { apply Qnot_lt_le. intro HhA.
      assert (Hh0 : 0 <= high) by lra.
      destruct (erlang_b_strictly_below N high A Pr HN Hh0 HhA EA H1)
        as (w & Ew & Hw).
      assert (w = v) by congruence. subst w. lra. }
    destruct (bisect_round_trip (Z.to_nat default_max_iter) N A Pr default_tol
                HN EA H1 0 high) as (a & Ea & Ha & Hres);
      [lra | exact HA | exact HAh |].
    rewrite Ea. exists a. split; [reflexivity|]. split; [exact Ha|].
    destruct Hres as [Hres | Hres]; [left; exact Hres | right].
    change (Z.of_nat (S (Z.to_nat default_max_iter))) with 101%Z in Hres.
    assert (Hp : 0 < 2 ^ 101) by (vm_compute; reflexivity).
    set (p := 2 ^ 101) in *.
    assert (Hb : (high - 0) / p <= 1048576 / p).
    { apply Qdiv_le_cross; try assumption. nra. }
    lra.
Qed.

Lemma round_trip_probability_witness :
  exists a,
    erlang_a_from_pr 21 1 (1 # 2) default_tol default_max_iter default_max_A
    = Some (Ok (Fin a)) /\
    0 <= a /\
    ((exists v, erlang_b 1 a = Ok v /\ Qabs (v - (1 # 2)) <= default_tol)
     \/ Qabs (a - 1) <= 1048576 / 2 ^ 101).
Proof.
  apply (round_trip_probability 21 1 1 (1 # 2)).
  - lia.
  - lia.
  - lra.
  - unfold default_max_A. lra.
  - vm_compute. reflexivity.
  - lra.
  - lra.
Defined.

(** * Further properties of the engine *)

(** ** The overflow sentinel *)

(** From 171 channels on, [N!] is out of the range of a double. *)
Lemma erlang_b_many_channels (N : Z) (A : Q) :
  (171 <= N)%Z -> 0 <= A -> erlang_b N A = Ok 1.
Proof.
  intros HN HA.
  as_successor N E.
  destruct (erlang_b_cases (Z.to_nat N - 1) A HA)
    as [(_ & v & Et & _) | (_ & Ev)].
  - exfalso.
    assert (Hfree : overflow_free N A)
      by (unfold overflow_free; rewrite E, Et; discriminate).
    apply overflow_free_iff in Hfree; [|lia | exact HA].
    destruct Hfree as (H170 & _). lia.
  - rewrite E. exact Ev.
Qed.

(** X1.  For [N >= 1] and a float traffic [A >= 0], as soon as [N > 170]
    or [A^N] is out of the range of a double, [erlang_b] returns the
    sentinel 1.  (With an int traffic Python divides two ints exactly and
    the sentinel comes later: [erlang_b_int] below.) *)
Theorem erlang_b_sentinel (N : Z) (A : Q) :
  (1 <= N)%Z -> 0 <= A ->
  ~ ((N <= 170)%Z /\ A ^ N < inject_Z DBL_OVERFLOW) ->
  erlang_b N A = Ok 1.
Proof.
  intros HN HA Hout.
  as_successor N E.
  destruct (erlang_b_cases (Z.to_nat N - 1) A HA)
    as [(_ & v & Et & _) | (_ & Ev)].
  - exfalso. apply Hout. apply (overflow_free_iff N A HN HA).
    unfold overflow_free. rewrite E, Et. discriminate.
  - rewrite E. exact Ev.
Qed.

Lemma erlang_b_sentinel_witness : erlang_b 200 3 = Ok 1.
Proof.
  apply (erlang_b_sentinel 200 3); [lia | lra |].
  intros (H & _). lia.
Defined.

Lemma recurrence_zero_traffic (n : nat) : erlang_b_recurrence (S n) 0 == 0.
Proof.
  rewrite erlang_b_recurrence_succ.
  assert (Hc : 0 < inject_Z (Z.of_nat (S n))) by (apply inject_Z_pos; lia).
  field. lra.
Qed.

(** X2.  With no traffic, [erlang_b N 0] is 0 for [N] from 1 to 170. *)
Theorem erlang_b_zero_traffic (N : Z) :
  (1 <= N <= 170)%Z -> exists v, erlang_b N 0 = Ok v /\ v == 0.
Proof.
  intros HN.
  assert (HA : 0 <= 0) by lra.
  assert (Hfree : overflow_free N 0).
  { apply overflow_free_iff; [lia | exact HA |]. split; [lia|].
    rewrite Qpower_0 by lia. vm_compute. reflexivity. }
  as_successor N E. rewrite E in Hfree |- *.
  pose proof (overflow_free_terms_ok _ _ HA Hfree) as Hok.
  destruct (erlang_b_terms_ok _ _ HA Hok) as (v & Ev & Hv).
  exists v. split; [exact Ev|].
  rewrite Hv. apply recurrence_zero_traffic.
Qed.

Lemma erlang_b_zero_traffic_witness :
  exists v, erlang_b 10 0 = Ok v /\ v == 0.
Proof. apply (erlang_b_zero_traffic 10). lia. Defined.

(** ** More on the minimum number of channels *)

(** The scan of [erlang_b_inverse], for a positive traffic and a target
    under 1. *)
Lemma erlang_b_inverse_scan (A Pr : Q) (M : Z) :
  0 < A -> Pr < 1 ->
  exists n,
    erlang_b_inverse A Pr M = Ok n /\
    (((1 <= n <= M)%Z /\ meets A Pr n /\
      forall k, (1 <= k < n)%Z -> ~ meets A Pr k)
     \/
     (n = M /\ forall k, (1 <= k <= M)%Z -> ~ meets A Pr k)).
Proof.
  intros HA HPr1. unfold erlang_b_inverse.
  apply Qle_bool_gt in HA. rewrite HA.
  apply Qle_bool_gt in HPr1. rewrite HPr1.
  apply Qle_bool_gt in HA.
  destruct (erlang_b_inverse_loop_spec A Pr M (Z.to_nat (M + 1 - 1))
              (Qlt_le_weak _ _ HA) 1%Z (M + 1)%Z eq_refl)
    as (n & En & Hn); [lia|].
  exists n. split; [exact En|].
  destruct Hn as [(Hr & Hm & Hmin) | (-> & Hnone)].
  - left. repeat split; try lia; assumption.
  - right. split; [reflexivity|]. intros k Hk. apply Hnone. lia.
Qed.

Lemma erlang_b_inverse_no_traffic (A Pr : Q) (M : Z) :
  A <= 0 -> erlang_b_inverse A Pr M = Ok 0%Z.
Proof.
  intro HA. unfold erlang_b_inverse.
  apply Qle_bool_iff in HA. rewrite HA. reflexivity.
Qed.

Lemma erlang_b_inverse_loose_target (A Pr : Q) (M : Z) :
  0 < A -> 1 <= Pr -> erlang_b_inverse A Pr M = Ok 1%Z.
Proof.
  intros HA HPr. unfold erlang_b_inverse.
  apply Qle_bool_gt in HA. rewrite HA.
  apply Qle_bool_iff in HPr. rewrite HPr. reflexivity.
Qed.

(** What [erlang_b_inverse] returns for a positive traffic is at least 1
    when [max_channels] is. *)
Lemma erlang_b_inverse_at_least_1 (A Pr : Q) (M n : Z) :
  0 < A -> (1 <= M)%Z -> erlang_b_inverse A Pr M = Ok n -> (1 <= n)%Z.
Proof.
  intros HA HM En.
  destruct (Qlt_le_dec Pr 1) as [HPr | HPr].
  - destruct (erlang_b_inverse_scan A Pr M HA HPr) as (n' & En' & Hn').
    assert (n' = n) by congruence. subst n'.
    destruct Hn' as [(Hr & _) | (-> & _)]; lia.
  - rewrite (erlang_b_inverse_loose_target A Pr M HA HPr) in En.
    injection En as <-. lia.
Qed.

(** X6.  [erlang_b_inverse] raises nothing, whatever its arguments: the
    test [A <= 0] keeps [erlang_b] away from the negative traffics at
    which it can raise [ZeroDivisionError].  It returns 0 when [A <= 0],
    and at least 1 when [A > 0] and [max_channels >= 1]. *)
Theorem erlang_b_inverse_never_raises (A Pr : Q) (M : Z) :
  exists n,
    erlang_b_inverse A Pr M = Ok n /\
    (A <= 0 -> n = 0%Z) /\
    (0 < A -> (1 <= M)%Z -> (1 <= n)%Z).
Proof.
  destruct (Qlt_le_dec 0 A) as [HA | HA].
  - assert (Hex : exists n, erlang_b_inverse A Pr M = Ok n).
    { destruct (Qlt_le_dec Pr 1) as [HPr | HPr].
      - destruct (erlang_b_inverse_scan A Pr M HA HPr) as (n & En & _).
        exists n. exact En.
      - exists 1%Z. apply erlang_b_inverse_loose_target; assumption. }
    destruct Hex as (n & En). exists n. split; [exact En|]. split.
    + intro H. lra.
    + intros _ HM. apply (erlang_b_inverse_at_least_1 A Pr M n HA HM En).
  - exists 0%Z. split; [apply erlang_b_inverse_no_traffic; exact HA|].
    split; [reflexivity | intro H; lra].
Qed.

Lemma erlang_b_inverse_never_raises_witness :
  exists n,
    erlang_b_inverse (-1) (1 # 100) 1000 = Ok n /\
    (-1 <= 0 -> n = 0%Z) /\
    (0 < -1 -> (1 <= 1000)%Z -> (1 <= n)%Z).
Proof. exact (erlang_b_inverse_never_raises (-1) (1 # 100) 1000). Defined.

(** X7.  Inversion consistency: for [N >= 1] and [A > 0], the number of
    channels found for the target [erlang_b N A] is at most [N], whatever
    [max_channels] is. *)
Theorem erlang_b_inverse_of_erlang_b (N : Z) (A Pr : Q) (M : Z) :
  (1 <= N)%Z -> 0 < A -> erlang_b N A = Ok Pr ->
  exists n, erlang_b_inverse A Pr M = Ok n /\ (n <= N)%Z.
Proof.
  intros HN HA EN.
  assert (Hmeets : meets A Pr N) by (exists Pr; split; [exact EN | lra]).
  destruct (Qlt_le_dec Pr 1) as [HPr | HPr].
  - destruct (erlang_b_inverse_scan A Pr M HA HPr) as (n & En & Hn).
    exists n. split; [exact En|].
    destruct Hn as [(Hr & _ & Hmin) | (-> & Hnone)].
    + destruct (Z_le_gt_dec n N) as [H|H]; [exact H|].
      exfalso. apply (Hmin N); [lia | exact Hmeets].
    + destruct (Z_le_gt_dec M N) as [H|H]; [exact H|].
      exfalso. apply (Hnone N); [lia | exact Hmeets].
  - exists 1%Z. split; [|exact HN].
    apply erlang_b_inverse_loose_target; assumption.
Qed.

Lemma erlang_b_inverse_of_erlang_b_witness :
  exists n, erlang_b_inverse 1 (1 # 2) 1000 = Ok n /\ (n <= 1)%Z.
Proof.
  apply (erlang_b_inverse_of_erlang_b 1 1 (1 # 2) 1000);
    [lia | lra | vm_compute; reflexivity].
Defined.

Lemma meets_weaken_target (A Pr Pr' : Q) (k : Z) :
  Pr <= Pr' -> meets A Pr k -> meets A Pr' k.
Proof.
  intros H (v & Ev & Hv). exists v. split; [exact Ev | lra].
Qed.

(** Two scans of [1..M] for two predicates, the second weaker than the
    first: the second stops no later. *)
Lemma scans_ordered (P P' : Z -> Prop) (M n n' : Z) :
  (1 <= M)%Z ->
  (forall k, (1 <= k)%Z -> P k -> P' k) ->
  (((1 <= n <= M)%Z /\ P n /\ forall k, (1 <= k < n)%Z -> ~ P k)
   \/ (n = M /\ forall k, (1 <= k <= M)%Z -> ~ P k)) ->
  (((1 <= n' <= M)%Z /\ P' n' /\ forall k, (1 <= k < n')%Z -> ~ P' k)
   \/ (n' = M /\ forall k, (1 <= k <= M)%Z -> ~ P' k)) ->
  (n' <= n)%Z.
Proof.
  intros HM Himp [(Hr & Hp & _) | (-> & _)] [(Hr' & _ & Hmin') | (-> & Hnone')];
    try lia.
  - destruct (Z_le_gt_dec n' n) as [H|H]; [exact H|].
    exfalso. apply (Hmin' n); [lia|]. apply Himp; [lia | exact Hp].
  - exfalso. apply (Hnone' n); [lia|]. apply Himp; [lia | exact Hp].
Qed.

(** X8.  A looser target never needs more channels: for [max_channels]
    at least 1, [erlang_b_inverse] is non-increasing in [Pr]. *)
Theorem erlang_b_inverse_antitone_Pr (A Pr Pr' : Q) (M n n' : Z) :
  (1 <= M)%Z -> Pr <= Pr' ->
  erlang_b_inverse A Pr M = Ok n -> erlang_b_inverse A Pr' M = Ok n' ->
  (n' <= n)%Z.
Proof.
  intros HM HPr En En'.
  destruct (Qlt_le_dec 0 A) as [HA | HA].
  - destruct (Qlt_le_dec Pr' 1) as [H1' | H1'].
    + assert (H1 : Pr < 1) by lra.
      destruct (erlang_b_inverse_scan A Pr M HA H1) as (m & Em & Hm).
      destruct (erlang_b_inverse_scan A Pr' M HA H1') as (m' & Em' & Hm').
      assert (m = n) by congruence. assert (m' = n') by congruence.
      subst m m'.
      apply (scans_ordered (meets A Pr) (meets A Pr') M n n' HM);
        try assumption.
      intros k _. apply meets_weaken_target. exact HPr.
    + rewrite (erlang_b_inverse_loose_target A Pr' M HA H1') in En'.
      injection En' as <-.
      apply (erlang_b_inverse_at_least_1 A Pr M n HA HM En).
  - rewrite (erlang_b_inverse_no_traffic A Pr M HA) in En.
    rewrite (erlang_b_inverse_no_traffic A Pr' M HA) in En'.
    injection En as <-. injection En' as <-. lia.
Qed.

Lemma erlang_b_inverse_antitone_Pr_witness : (8 <= 11)%Z.
Proof.
  apply (erlang_b_inverse_antitone_Pr 5 (1 # 100) (1 # 10) 1000 11 8);
    [lia | lra | vm_compute; reflexivity | vm_compute; reflexivity].
Defined.

(** X10.  For a positive float traffic and a target under 1,
    [erlang_b_inverse] never returns a number of channels above 170 other
    than the fallback [max_channels]: from 171 channels on [erlang_b] is
    the sentinel 1 at every float traffic. *)
Theorem erlang_b_inverse_at_most_170 (A Pr : Q) (M n : Z) :
  0 < A -> Pr < 1 -> erlang_b_inverse A Pr M = Ok n ->
  (n <= 170)%Z \/ n = M.
Proof.
  intros HA HPr En.
  destruct (erlang_b_inverse_scan A Pr M HA HPr) as (m & Em & Hm).
  assert (m = n) by congruence. subst m.
  destruct Hm as [(Hr & (v & Ev & Hv) & _) | (-> & _)]; [|right; reflexivity].
  left. destruct (Z_le_gt_dec n 170) as [H|H]; [exact H|].
  exfalso.
  rewrite (erlang_b_many_channels n A) in Ev; [|lia | lra].
  injection Ev as <-. lra.
Qed.

Lemma erlang_b_inverse_at_most_170_witness :
  (11 <= 170)%Z \/ 11%Z = 1000%Z.
Proof.
  apply (erlang_b_inverse_at_most_170 5 (1 # 100) 1000 11);
    [lra | lra | vm_compute; reflexivity].
Defined.

(** ** More on the offered traffic *)

Lemma bisect_between (iters : nat) (N : Z) (Pr tol : Q) :
  (1 <= N)%Z ->
  forall low high, 0 <= low -> low < high ->
  exists a, bisect iters N Pr tol low high = Ok a /\ low < a /\ a < high.
Proof.
  intro HN. induction iters as [|iters IH]; intros low high Hl Hlh;
    cbn [bisect]; set (m := (low + high) / 2);
    assert (Em : 2 * m == low + high) by (unfold m; field).
  - exists m. split; [reflexivity | lra].
  - assert (Hm : 0 <= m) by lra.
    destruct (erlang_b_Ok N m HN Hm) as (v & Ev & _).
    rewrite Ev. cbn [bind].
    destruct (Qle_bool (Qabs (v - Pr)) tol).
    + exists m. split; [reflexivity | lra].
    + destruct (Qltb v Pr).
      * destruct (IH m high Hm) as (a & Ea & Ha); [lra|].
        exists a. split; [exact Ea | lra].
      * destruct (IH low m Hl) as (a & Ea & Ha); [lra|].
        exists a. split; [exact Ea | lra].
Qed.

(** The result of the bisection is at least [(high - low) / 2^(iters+1)]
    above [low]. *)
Lemma bisect_lower_bound (iters : nat) (N : Z) (Pr tol : Q) :
  (1 <= N)%Z ->
  forall low high, 0 <= low -> low < high ->
  exists a, bisect iters N Pr tol low high = Ok a /\
            low + (high - low) / 2 ^ Z.of_nat (S iters) <= a.
Proof.
  intro HN. induction iters as [|iters IH]; intros low high Hl Hlh;
    cbn [bisect]; set (m := (low + high) / 2);
    assert (Em : 2 * m == low + high) by (unfold m; field).
  - exists m. split; [reflexivity|].
    change (2 ^ Z.of_nat 1) with 2.
    set (w := (high - low) / 2).
    assert (Ew : 2 * w == high - low) by (unfold w; field).
    lra.
  - assert (Hm : 0 <= m) by lra.
    pose proof (pow2_ge_1 (S iters)) as Hp.
    assert (Ehalf : forall d, 2 * d == high - low ->
              d / 2 ^ Z.of_nat (S iters)
              == (high - low) / 2 ^ Z.of_nat (S (S iters))).
    { intros d E. rewrite (Qpower_succ_nat 2 (S iters)), <- E. field. lra. }
    set (t := (high - low) / 2 ^ Z.of_nat (S (S iters))) in *.
    assert (Ht : 0 <= t).
    { unfold t. apply Qle_shift_div_l.
      - rewrite (Qpower_succ_nat 2 (S iters)). lra.
      - lra. }
    assert (Htm : low + t <= m).
    { rewrite <- (Ehalf (m - low)) by lra.
      assert (Hq : (m - low) / 2 ^ Z.of_nat (S iters) <= m - low).
      { apply Qle_shift_div_r; [lra|]. nra. }
      lra. }
    destruct (erlang_b_Ok N m HN Hm) as (v & Ev & _).
    rewrite Ev. cbn [bind].
    destruct (Qle_bool (Qabs (v - Pr)) tol).
    + exists m. split; [reflexivity | exact Htm].
    + destruct (Qltb v Pr).
      * destruct (IH m high Hm) as (a & Ea & Ha); [lra|].
        exists a. split; [exact Ea|].
        assert (0 <= (high - m) / 2 ^ Z.of_nat (S iters))
          by (apply Qle_shift_div_l; lra).
        lra.
      * destruct (IH low m Hl) as (a & Ea & Ha); [lra|].
        exists a. split; [exact Ea|].
        rewrite (Ehalf (m - low)) in Ha by lra. exact Ha.
Qed.

(** X11.  For [N >= 1] and [0 < Pr < 1], what [erlang_a_from_pr] returns
    with the default [max_iter] and [max_A] lies between [2^-101], half of
    what 100 halvings leave of the first bracket, and [2^20], the last
    value the doubling loop can reach: it is never 0. *)
Theorem erlang_a_from_pr_range (fuel : nat) (N : Z) (Pr tol : Q) :
  (21 <= fuel)%nat -> (1 <= N)%Z -> 0 < Pr -> Pr < 1 ->
  exists a,
    erlang_a_from_pr fuel N Pr tol default_max_iter default_max_A
    = Some (Ok (Fin a)) /\ 1 / 2 ^ 101 <= a /\ a <= 1048576.
Proof.
  intros Hfuel HN H0 H1.
  destruct (bracket_default fuel N Pr HN Hfuel)
    as (high & Eh & Hh1 & Hh2 & v & Ev & _).
  rewrite erlang_a_from_pr_interior by assumption.
  rewrite Eh, Ev.
  assert (Hp : 0 < 2 ^ 101) by (vm_compute; reflexivity).
  destruct (Qltb v Pr).
  - exists default_max_A. split; [reflexivity|].
    split; [vm_compute; discriminate | vm_compute; discriminate].
  - destruct (bisect_lower_bound (Z.to_nat default_max_iter) N Pr tol HN 0 high)
      as (a & Ea & Hlow); [lra | lra |].
    destruct (bisect_between (Z.to_nat default_max_iter) N Pr tol HN 0 high)
      as (a' & Ea' & Hbet); [lra | lra |].
    assert (a' = a) by congruence. subst a'.
    rewrite Ea. exists a. split; [reflexivity|]. split; [|lra].
    change (Z.of_nat (S (Z.to_nat default_max_iter))) with 101%Z in Hlow.
    set (p := 2 ^ 101) in *.
    assert (Hle : 1 / p <= (high - 0) / p)
      by (apply Qdiv_le_cross; try assumption; nra).
    lra.
Qed.

Lemma erlang_a_from_pr_range_witness :
  exists a,
    erlang_a_from_pr 21 5 (1 # 50) default_tol default_max_iter default_max_A
    = Some (Ok (Fin a)) /\ 1 / 2 ^ 101 <= a /\ a <= 1048576.
Proof.
  apply (erlang_a_from_pr_range 21 5 (1 # 50)); [lia | lia | lra | lra].
Defined.

(** X12.  A target that the largest bracket [2^20] does not reach is
    answered with [max_A]: if [erlang_b N (2^20) < Pr], [erlang_a_from_pr]
    returns [1e6]. *)
Theorem erlang_a_from_pr_saturates (fuel : nat) (N : Z) (Pr tol v : Q)
  (max_iter : Z) :
  (21 <= fuel)%nat -> (1 <= N)%Z -> 0 < Pr -> Pr < 1 ->
  erlang_b N 1048576 = Ok v -> v < Pr ->
  erlang_a_from_pr fuel N Pr tol max_iter default_max_A
  = Some (Ok (Fin default_max_A)).
Proof.
  intros Hfuel HN H0 H1 Ev Hv.
  destruct (bracket_default fuel N Pr HN Hfuel)
    as (high & Eh & Hh1 & Hh2 & w & Ew & _).
  rewrite erlang_a_from_pr_interior by assumption.
  rewrite Eh, Ew.
  assert (Hh0 : 0 <= high) by lra.
  destruct (erlang_b_nondecreasing_A N high 1048576 HN Hh0 Hh2)
    as (w1 & v1 & Ew1 & Ev1 & Hwv).
  assert (w1 = w) by congruence. assert (v1 = v) by congruence. subst w1 v1.
  assert (Hlt : Qltb w Pr = true) by (apply Qltb_lt; lra).
  rewrite Hlt. reflexivity.
Qed.

Lemma erlang_a_from_pr_saturates_witness :
  erlang_a_from_pr 21 1 (9999999 # 10000000) default_tol default_max_iter
    default_max_A
  = Some (Ok (Fin default_max_A)).
Proof.
  apply (erlang_a_from_pr_saturates 21 1 (9999999 # 10000000) default_tol
           (1048576 # 1048577));
    [lia | lia | lra | lra | vm_compute; reflexivity | lra].
Defined.




(** * Properties of the request handlers *)

(** X14.  [calculate_channels] always answers, with no exception left to
    the framework.  The answer is 400 with the traffic message when
    [A <= 0], 400 with the probability message when [A > 0] and [Pr] is
    outside [(0, 1)], and otherwise 200 with a number of channels between
    1 and 1000. *)
Theorem calculate_channels_response (A Pr : Q) :
  (A <= 0 /\
   calculate_channels A Pr
   = Ok (Error "Le trafic A doit être positif", 400%Z))
  \/
  (0 < A /\ (Pr <= 0 \/ 1 <= Pr) /\
   calculate_channels A Pr = Ok (Error "Pr doit être entre 0 et 1", 400%Z))
  \/
  (0 < A /\ 0 < Pr /\ Pr < 1 /\
   exists N, calculate_channels A Pr = Ok (ResultChannels N, 200%Z) /\
             erlang_b_inverse A Pr default_max_channels = Ok N /\
             (1 <= N <= 1000)%Z).
Proof.
  unfold calculate_channels.
  destruct (Qle_bool A 0) eqn:EA.
  { left. apply Qle_bool_iff in EA. split; [exact EA | reflexivity]. }
  apply Qle_bool_gt in EA. right.
  destruct (Qle_bool Pr 0) eqn:E0.
  { left. apply Qle_bool_iff in E0. repeat split; [exact EA | left; exact E0]. }
  destruct (Qle_bool 1 Pr) eqn:E1.
  { left. apply Qle_bool_iff in E1. repeat split; [exact EA | right; exact E1]. }
  apply Qle_bool_gt in E0. apply Qle_bool_gt in E1. right.
  cbn [orb].
  destruct (erlang_b_inverse_scan A Pr default_max_channels EA E1)
    as (n & En & Hn).
  rewrite En. cbn [bind except_ValueError].
  repeat split; try assumption.
  exists n. repeat split; unfold default_max_channels in Hn;
    destruct Hn as [(Hr & _) | (-> & _)]; lia.
Qed.

(** X15.  [calculate_loss_prob] always answers, with no exception left to
    the framework: 400 with the traffic message when [A <= 0], 400 with
    the channel message when [A > 0] and [N <= 0], and otherwise 200 with
    the blocking probability, between 0 and 1, and a hundred times it. *)
Theorem calculate_loss_prob_response (A : Q) (N : Z) :
  (A <= 0 /\
   calculate_loss_prob A N
   = Ok (Error "Le trafic A doit être positif", 400%Z))
  \/
  (0 < A /\ (N <= 0)%Z /\
   calculate_loss_prob A N
   = Ok (Error "Le nombre de canaux doit être positif", 400%Z))
  \/
  (0 < A /\ (1 <= N)%Z /\
   exists Pr, calculate_loss_prob A N = Ok (ResultLoss Pr (Pr * 100), 200%Z) /\
              erlang_b N A = Ok Pr /\ 0 <= Pr /\ Pr <= 1 /\
              0 <= Pr * 100 /\ Pr * 100 <= 100).
Proof.
  unfold calculate_loss_prob.
  destruct (Qle_bool A 0) eqn:EA.
  { left. apply Qle_bool_iff in EA. split; [exact EA | reflexivity]. }
  apply Qle_bool_gt in EA. right.
  destruct (N <=? 0)%Z eqn:EN.
  { left. apply Z.leb_le in EN. repeat split; assumption. }
  apply Z.leb_gt in EN. right.
  destruct (erlang_b_Ok N A) as (v & Ev & Hv0 & Hv1); [lia | lra |].
  rewrite Ev. cbn [bind except_ValueError].
  repeat split; try assumption; try lia.
  exists v. repeat split; try assumption; lra.
Qed.

(** X16.  [calculate_traffic_a] always answers (21 units of fuel are
    enough), with no exception left to the framework: 400 with the channel
    message when [N <= 0], 400 with the probability message when [N >= 1]
    and [Pr] is outside [[0, 1)], and otherwise 200 with a finite
    non-negative traffic.  The branch for an infinite traffic and the
    [except ValueError] clause are never taken. *)
Theorem calculate_traffic_a_response (fuel : nat) (N : Z) (Pr : Q) :
  (21 <= fuel)%nat ->
  ((N <= 0)%Z /\
   calculate_traffic_a fuel N Pr
   = Some (Ok (Error "Le nombre de canaux doit être positif", 400%Z)))
  \/
  ((1 <= N)%Z /\ (Pr < 0 \/ 1 <= Pr) /\
   calculate_traffic_a fuel N Pr
   = Some (Ok (Error "Pr doit être dans [0, 1)", 400%Z)))
  \/
  ((1 <= N)%Z /\ 0 <= Pr /\ Pr < 1 /\
   exists a, calculate_traffic_a fuel N Pr = Some (Ok (ResultTraffic a, 200%Z))
             /\ erlang_a_from_pr fuel N Pr default_tol default_max_iter
                  default_max_A = Some (Ok (Fin a))
             /\ 0 <= a).
Proof.
  intro Hfuel. unfold calculate_traffic_a.
  destruct (N <=? 0)%Z eqn:EN.
  { left. apply Z.leb_le in EN. split; [exact EN | reflexivity]. }
  apply Z.leb_gt in EN. right.
  destruct (Qltb Pr 0) eqn:E0.
  { left. apply Qltb_lt in E0. repeat split; [lia | left; exact E0]. }
  destruct (Qle_bool 1 Pr) eqn:E1.
  { left. apply Qle_bool_iff in E1. repeat split; [lia | right; exact E1]. }
  apply Qltb_ge in E0. apply Qle_bool_gt in E1. right.
  cbn [orb].
  assert (Ha : exists a,
             erlang_a_from_pr fuel N Pr default_tol default_max_iter
               default_max_A = Some (Ok (Fin a)) /\ 0 <= a).
  { destruct (Qlt_le_dec 0 Pr) as [Hpos | Hzero].
    - destruct (bracket_default fuel N Pr) as (high & Eh & Hh1 & _ & v & Ev & _);
        [lia | exact Hfuel |].
      rewrite erlang_a_from_pr_interior by (try lia; assumption).
      rewrite Eh, Ev. destruct (Qltb v Pr).
      + exists default_max_A. split; [reflexivity|].
        unfold default_max_A. lra.
      + destruct (bisect_total (Z.to_nat default_max_iter) N Pr default_tol)
          with (low := 0) (high := high) as (a & Ea & Ha); [lia | lra | lra |].
        rewrite Ea. exists a. split; [reflexivity | exact Ha].
    - exists 0. split; [|lra].
      unfold erlang_a_from_pr. skip_channel_check.
      apply Qle_bool_iff in Hzero. rewrite Hzero. reflexivity. }
  destruct Ha as (a & Ea & Ha). rewrite Ea.
  cbn [option_map bind except_ValueError].
  repeat split; try assumption; try lia.
  exists a. repeat split; assumption.
Qed.

Lemma calculate_traffic_a_response_witness :
  ((5 <= 0)%Z /\
   calculate_traffic_a 21 5 0
   = Some (Ok (Error "Le nombre de canaux doit être positif", 400%Z)))
  \/
  ((1 <= 5)%Z /\ (0 < 0 \/ 1 <= 0) /\
   calculate_traffic_a 21 5 0
   = Some (Ok (Error "Pr doit être dans [0, 1)", 400%Z)))
  \/
  ((1 <= 5)%Z /\ 0 <= 0 /\ 0 < 1 /\
   exists a, calculate_traffic_a 21 5 0 = Some (Ok (ResultTraffic a, 200%Z))
             /\ erlang_a_from_pr 21 5 0 default_tol default_max_iter
                  default_max_A = Some (Ok (Fin a))
             /\ 0 <= a).
Proof.
  apply (calculate_traffic_a_response 21 5 0). lia.
Defined.

(** * [erlang_b] at an int traffic *)

Lemma term_int_of_nat (A : Z) (k : nat) :
  term_int A (Z.of_nat k) =
  if (LONG_MAX <? Z.of_nat k)%Z
     || overflows (inject_Z (A ^ Z.of_nat k) / inject_Z (fact_Z k))
  then Raise OverflowError
  else Ok (inject_Z (A ^ Z.of_nat k) / inject_Z (fact_Z k)).
Proof.
  unfold term_int, factorial, int_true_div.
  rewrite of_nat_ltb_0.
  destruct (LONG_MAX <? Z.of_nat k)%Z; [reflexivity|].
  cbn [bind orb]. rewrite Nat2Z.id, fact_Z_eqb_0.
  destruct (overflows (inject_Z (A ^ Z.of_nat k) / inject_Z (fact_Z k)));
    reflexivity.
Qed.

Lemma term_int_Raise (A : Z) (k : nat) (e : exn) :
  term_int A (Z.of_nat k) = Raise e -> e = OverflowError.
Proof.
  rewrite term_int_of_nat.
  match goal with |- context [if ?b then _ else _] => destruct b end;
    congruence.
Qed.

Lemma term_int_nonneg (A : Z) (k : nat) (t : Q) :
  (0 <= A)%Z -> term_int A (Z.of_nat k) = Ok t -> 0 <= t.
Proof.
  intro HA. rewrite term_int_of_nat.
  match goal with |- context [if ?b then _ else _] => destruct b end;
    [discriminate|].
  intro H. injection H as <-.
  pose proof (inject_Z_pos _ (fact_Z_pos k)) as Hf.
  apply Qle_shift_div_l; [exact Hf|].
  rewrite Qmult_0_l. change 0 with (inject_Z 0). rewrite <- Zle_Qle.
  apply Z.pow_nonneg. exact HA.
Qed.

Lemma term_int_zero (A : Z) (t : Q) :
  term_int A (Z.of_nat 0) = Ok t -> t == 1.
Proof.
  rewrite term_int_of_nat.
  match goal with |- context [if ?b then _ else _] => destruct b end;
    [discriminate|].
  intro H. injection H as <-. reflexivity.
Qed.

Lemma sum_terms_int_app (A : Z) (l1 l2 : list Z) (acc : Q) :
  sum_terms_int A acc (l1 ++ l2)
  = (s <- sum_terms_int A acc l1 ;; sum_terms_int A s l2).
Proof.
  revert acc. induction l1 as [|k l1 IH]; intro acc; cbn [sum_terms_int app].
  - reflexivity.
  - destruct (term_int A k) as [t|e]; cbn [bind]; [apply IH | reflexivity].
Qed.

(** Over naturals and a non-negative traffic, the sum only grows and only
    an overflow can interrupt it. *)
Lemma sum_terms_int_nat (A : Z) (l : list nat) :
  (0 <= A)%Z ->
  forall acc,
  match sum_terms_int A acc (map Z.of_nat l) with
  | Ok s => acc <= s
  | Raise e => e = OverflowError
  end.
Proof.
  intro HA. induction l as [|k l IH]; intro acc; cbn [map sum_terms_int].
  - lra.
  - destruct (term_int A (Z.of_nat k)) as [t|e] eqn:Et; cbn [bind].
    + pose proof (term_int_nonneg A k t HA Et) as Ht.
      specialize (IH (acc + t)).
      destruct (sum_terms_int A (acc + t) (map Z.of_nat l)); [lra | exact IH].
    + apply (term_int_Raise A k). exact Et.
Qed.

(** The sum runs to its end when every term is in range. *)
Lemma sum_terms_int_complete (A : Z) (n : nat) :
  int_terms_okb A n = true ->
  forall m acc, (m <= S n)%nat ->
  exists s, sum_terms_int A acc (range (Z.of_nat m)) = Ok s.
Proof.
  unfold int_terms_okb. rewrite forallb_forall. intro Hall.
  induction m as [|m IH]; intros acc Hm.
  - exists acc. reflexivity.
  - rewrite range_succ, sum_terms_int_app.
    destruct (IH acc) as (s & Es); [lia|]. rewrite Es. cbn [bind sum_terms_int].
    assert (Hin : In m (seq 0 (S n))) by (apply in_seq; lia).
    specialize (Hall m Hin).
    destruct (term_int A (Z.of_nat m)) as [t|e]; [|discriminate].
    cbn [bind]. eexists. reflexivity.
Qed.

(** The sum of the terms from [k = 0] on is at least 1, its first term. *)
Lemma sum_terms_int_ge_1 (A : Z) (n : nat) :
  (0 <= A)%Z ->
  match sum_terms_int A 0 (range (Z.of_nat (S n))) with
  | Ok s => 1 <= s
  | Raise e => e = OverflowError
  end.
Proof.
  intro HA. unfold range. rewrite Nat2Z.id.
  change (seq 0 (S n)) with (O :: seq 1 n).
  cbn [map sum_terms_int].
  destruct (term_int A (Z.of_nat 0)) as [t0|e0] eqn:Et0; cbn [bind].
  - pose proof (term_int_zero A t0 Et0) as Ht0.
    pose proof (sum_terms_int_nat A (seq 1 n) HA (0 + t0)) as Hs.
    destruct (sum_terms_int A (0 + t0) (map Z.of_nat (seq 1 n)));
      [lra | exact Hs].
  - apply (term_int_Raise A O). exact Et0.
Qed.

(** With a non-negative int traffic and at least one channel, the value is
    a quotient [t / (s + t)] with [t >= 0] and [s >= 1], or the sentinel. *)
Lemma erlang_b_int_cases (n : nat) (A : Z) :
  (0 <= A)%Z ->
  (exists v, erlang_b_int_try (Z.of_nat (S n)) A = Ok v /\
             erlang_b_int (Z.of_nat (S n)) A = Ok v /\ 0 <= v /\ v < 1)
  \/
  (erlang_b_int_try (Z.of_nat (S n)) A = Raise OverflowError /\
   erlang_b_int (Z.of_nat (S n)) A = Ok 1).
Proof.
  intro HA. unfold erlang_b_int.
  replace (Z.of_nat (S n) =? 0)%Z with false
    by (symmetry; apply Z.eqb_neq; lia).
  unfold erlang_b_int_try.
  replace (Z.of_nat (S n) + 1)%Z with (Z.of_nat (S (S n))) by lia.
  rewrite range_succ, sum_terms_int_app.
  pose proof (sum_terms_int_ge_1 A n HA) as Hs1.
  destruct (term_int A (Z.of_nat (S n))) as [t|e] eqn:Et; cbn [bind].
  - pose proof (term_int_nonneg A (S n) t HA Et) as Ht.
    destruct (sum_terms_int A 0 (range (Z.of_nat (S n)))) as [s1|e1];
      cbn [bind sum_terms_int].
    + rewrite Et. cbn [bind]. unfold float_div.
      destruct (Qeq_bool (s1 + t) 0) eqn:E0.
      { apply Qeq_bool_iff in E0. lra. }
      left. cbn [try_except_overflow_value].
      exists (t / (s1 + t)). split; [reflexivity|]. split; [reflexivity|].
      split.
      * apply Qle_shift_div_l; lra.
      * apply Qlt_shift_div_r; lra.
    + subst e1. right. split; reflexivity.
  - pose proof (term_int_Raise A (S n) e Et). subst e.
    right. split; reflexivity.
Qed.

(** X17.  At an int traffic [A >= 0] too, [erlang_b] raises nothing for
    [N >= 0] and returns a value between 0 and 1: the quotient of two ints
    that is out of range raises [OverflowError], which is caught, and the
    denominator is at least 1. *)
Theorem erlang_b_int_in_unit_interval (N A : Z) :
  (0 <= N)%Z -> (0 <= A)%Z ->
  exists v, erlang_b_int N A = Ok v /\ 0 <= v /\ v <= 1.
Proof.
  intros HN HA.
  destruct (Z.eq_dec N 0) as [-> | HN0].
  - unfold erlang_b_int. cbn [Z.eqb].
    eexists. split; [reflexivity|]. destruct (0 <? A)%Z; lra.
  - as_successor N E. rewrite E.
    destruct (erlang_b_int_cases (Z.to_nat N - 1) A HA)
      as [(v & _ & Ev & H0 & H1) | (_ & Ev)].
    + exists v. split; [exact Ev | lra].
    + exists 1. split; [exact Ev | lra].
Qed.

Lemma erlang_b_int_in_unit_interval_witness :
  exists v, erlang_b_int 10 5 = Ok v /\ 0 <= v /\ v <= 1.
Proof.
  apply (erlang_b_int_in_unit_interval 10 5); lia.
Defined.

(** With the int traffic 5 and 171 channels nothing overflows, and the
    value is not the sentinel: [5^171 / 171!] is a small quotient even
    though [171!] alone is out of the range of a double. *)
Example erlang_b_int_171_channels :
  exists v, erlang_b_int 171 5 = Ok v /\ v < 1.
Proof.
  destruct (erlang_b_int_cases 170 5) as [(v & _ & Ev & _ & H1) | (Et & _)];
    [lia | exists v; split; assumption |].
  exfalso. revert Et. unfold erlang_b_int_try.
  assert (Hok : int_terms_okb 5 171 = true) by (vm_compute; reflexivity).
  assert (Hin : In 171%nat (seq 0 172)) by (apply in_seq; lia).
  pose proof Hok as Hall. unfold int_terms_okb in Hall.
  rewrite forallb_forall in Hall. specialize (Hall 171%nat Hin).
  destruct (term_int 5 (Z.of_nat 171)) as [t|e]; [|discriminate].
  cbn [bind].
  destruct (sum_terms_int_complete 5 171 Hok 172 0) as (s & Es); [lia|].
  change (Z.of_nat 171 + 1)%Z with (Z.of_nat 172). rewrite Es. cbn [bind].
  unfold float_div. destruct (Qeq_bool s 0); discriminate.
Qed.
